(* ===== verification/_CoqProject ===== *)
-Q . S2P
Prelude.v
Ast.v
Alias.v
RelationTree.v
TreeCanon.v
Builder.v
Machine.v
Heap.v
Expression.v
Relation.v
