(* ===== verification/Prelude.v ===== *)
(** * ro.orm's relation compiler, verified

    ** The program
    [src/lib/compiler/relation.ts] compiles a predicate AST into a join
    plan.  [new Relation(ast, aliases)] (lines 14-18) creates a fresh root
    [{ name: '', children: [] }], runs [buildTree] (lines 20-45) over the
    AST and then [buildExpression] (lines 47-58) over the tree.
    - [buildTree] visits a logical node's constraints in order; on a
      comparison it replaces [node.args.identifier] by [aliases[identifier]]
      when [identifier in aliases] (mutating the caller's AST), splits it on
      ['.'], and walks a reference [top] down the tree for every token but
      the last, finding the child of that name or pushing a new one.
    - [buildExpression] prints a leaf as its name, one child as
      [name.child], several as [name.[c1,c2]], with no dot after [""].
    The AST and alias-map types live in [types/search], which is not among
    the sources: they are modelled from the spec.  The repository's tests
    ([src/test/search/search.spec.ts]) run three predicates end to end.

    ** The development (library root, one file per component)
    - [Prelude] (this file): the result type [result] (a returned value or a
      thrown exception) with stdpp's monad notation, JS [split] and [join]
      on strings ([js_split], [js_join]) with the lemmas that relate them, lemmas on
      lists updated at an index, on lists related pointwise ([Forall2]),
      on [NoDup] keys and on [existsb] up to permutation, the tactics
      [fold_alter] and [bool_cases], the hint and rewrite databases [relc] (the
      components add the lemmas that carry the invariant and the heap frame).
    - [Ast]: [Node] (logical, comparison, unrecognized tag), the JS values
      an identifier can hold after aliasing, [AliasMap] (a plain object's own
      properties), and an induction principle for the nested AST.
    - [Alias] (Module [Alias]): lines 24-29 with the semantics of [in] and
      of a property read on a plain object, inherited [Object.prototype]
      properties included.
    - [RelationTree]: [RelationNode]; the loop of lines 30-43 as the code
      runs it ([walk]: the tree as a store, [top] as an address into it,
      [find], [push] and its returned length) and the recursive
      find-or-create [insert_path]; their equality; what a tree denotes
      ([has_path], the set of its relation paths) and the refinement of
      [insert_path] against that set; the sibling-uniqueness invariant;
      idempotence; the nodes an insertion adds; the equivalence [≡] of trees with
      the same paths, with [Equivalence] and [Proper] instances; one
      iteration of the loop keeps the invariant.
    - [TreeCanon]: canonicity: for trees with distinct sibling names, [≡]
      is equality up to the order of siblings ([tree_perm]), so the plan of
      a list of paths is fixed, up to that order, by their prefixes.
    - [Builder]: [buildTree] over the AST, threading the tree and returning
      the rewritten AST, with [split] throwing on a non-string; its complete
      functional specification (when it throws, what AST and what tree it
      returns), the join-plan theorem, order independence up to sibling
      order, the invariant, root fields.
    - [Machine] (Module [Machine]): the same lines 20-45 run statement by
      statement, as the code runs them: the caller's AST as a store with
      addresses ([ast_at], [ast_update]; line 28 writes into it), the
      shared tree, and a stack of frames ([FVisit] for a pending call of
      [constraints.map], [FLoop] for the [for] loop's [i] and [top]).
      [exec_frame] is one statement, [step] the transition function, [run]
      the fuelled execution, [reachable] the reachable configurations.  It
      refines [Builder.buildTree], halts, keeps the invariant in every
      reachable state, and describes the AST a throw leaves behind.
    - [Heap] (Module [Heap]): the caller's AST as the graph of JS objects
      it is, a heap [gmap loc HNode] whose logical nodes hold references,
      and [hbuild], lines 20-45 as recursion over references with a bound
      on the call depth, line 28 writing into the one object all references
      read.  [decode] reads the AST a heap encodes and [node_locs] the
      objects it visits; on tree-shaped graphs [hbuild] refines
      [buildTree]; a shared comparison object is aliased once per
      reference; a self-containing object makes the recursion unbounded.
    - [Expression]: [buildExpression], a parser of the expression format,
      the round trip on well-formed plans and injectivity, the printing of
      chains and branches, and the ambiguity of plans with empty or
      bracketed names.
    - [Relation] (Module [Relation]): [RelationExpression], the
      constructor on an AST value ([construct]) and on the caller's object
      graph ([construct_heap]), its contract, typing and exact error
      condition, the repository's test scenarios for every input of their
      shape, and the behaviours found by modelling.

    ** Fuel and bounds
    Every definition is structural except the parser, which runs on fuel
    [S (String.length s)]; [node_count_expression_length] shows that the
    expression of a well-formed plan is long enough ([2 * nodes <= 1 +
    length]) for that fuel, so the round-trip theorem holds for the parser
    as written, not only for "enough" fuel.  The machine runs on fuel too:
    [Machine.node_work] counts one step per call, per loop iteration and per
    loop exit, computed from the AST before aliasing; the refinement
    theorem shows that exactly this fuel reaches the final configuration
    and the termination theorem that any larger fuel gives the same one.
    [Heap.hbuild] bounds the depth of nested calls (JS bounds it by the
    stack): a depth above the AST's depth, which [decode] needs as fuel
    too, suffices on tree-shaped graphs, and no depth suffices on a graph
    where a logical object contains itself.

    ** What the theorems show (claims C1-C40)
    The builder's functional specification (C1), the loop-versus-reference
    equivalence (C2), refinement to path sets (C3, C9, C17), alias
    resolution (C4), invariants (C5, C10, C18), idempotence (C6), the exact
    number of nodes an insertion adds and when it changes nothing (C7,
    C8), order independence (C11), root fields (C12), the expression's
    round trip (C13, C14, C19), the printing of chains and branches (C15)
    and its ambiguity for empty or bracketed names (C16).  The repository's
    tests are proved for every input of their shape: root fields need no
    join (C22), relation fields are joined once each in first-reference
    order (C20, C23), with or without aliases (C21).  What modelling
    exposed: an identifier named like a property of [Object.prototype]
    makes the compile throw (C24), and these are exactly the identifiers
    that make it throw (C28); the AST is mutated, so recompiling it
    re-applies the aliases (C25); unknown node tags are skipped silently
    (C26); a leading empty segment adds an unnamed relation that prints
    like the plan without it (C27).  The AST a successful compile leaves
    has string identifiers, its declared type (C29).  The plan is fixed,
    up to sibling order, by the prefixes of the inserted paths (C30).  The
    machine refines [buildTree] (C31), halts (C32), completes from every
    reachable state (C33), keeps distinct sibling names in every reachable
    state (C34, by induction on [reachable]), throws only on a non-string
    identifier and then leaves the AST aliased up to the throw (C35): the
    comparisons before the throwing one overwritten, the throwing one
    holding its non-string alias, the later ones untouched (C36).  On the
    object graph, the builder refines [buildTree] when the graph is a tree
    (C37) and so does the constructor refine [construct] (C40); a
    self-containing object makes it diverge (C38) and a shared comparison
    object is aliased twice in one compile, ending with the alias of its
    alias (C39).

    ** Not modelled
    Every statement of [src/lib/compiler/relation.ts] is translated; the
    lines the map leaves out are the import (line 1), blank lines, the
    constructor's doc comment (lines 9-13) and closing braces.  The DSL
    parser that produces the AST, the query executor ([lib/compiler] and
    its [search] method), Objection/knex and the database of the tests are
    not among the sources and outside the compiler core (spec, section 1):
    of the tests only the predicates and the relations they join are
    modelled, not the rows they compare.  The AST is a value in [Builder],
    [Machine] and [Relation.construct] and an object graph in [Heap] and
    [Relation.construct_heap]; the theorems relating them hold for
    tree-shaped graphs.  The JS stack bound (the RangeError a deep or
    cyclic AST raises) is not modelled: a call that needs more depth than
    allowed returns [None].  An own property literally named [__proto__] is
    taken as an own key, as with [Object.defineProperty]; an object literal
    would set the prototype.

    ** Possible extensions
    A typeclass of AST stores (read a node, write an identifier) that
    [Machine] (addresses into a value) and [Heap] (references into a heap)
    both instantiate, with the traversal proved once against it; divergence
    for cycles reached through other constraints than the first. *)

From stdpp Require Export base list gmap strings.
From Stdlib Require Export String Ascii Btauto.

Declare Scope relc_scope.
Delimit Scope relc_scope with relc.
Open Scope string_scope.
Open Scope list_scope.
Open Scope relc_scope.

(** [String] shadows the list functions [length] and [concat]: the list ones
    keep their names, the string ones are written [String.length] and
    [String.concat]. *)
Abbreviation length := Datatypes.length.
Abbreviation concat := List.concat.

(** String concatenation, [s1 + s2] on JS strings. *)
Infix "+++" := String.append (at level 60, right associativity) : relc_scope.
(** stdpp declares [String.append] [simpl never]; the model computes with it. *)
Arguments String.append : simpl nomatch.

(** ** Results: a thrown JS exception or a returned value *)

Inductive result (E A : Type) : Type :=
| Ok (a : A)
| Err (e : E).
Arguments Ok {E A} a.
Arguments Err {E A} e.

#[export] Instance result_ret {E} : MRet (result E) := fun _ a => Ok a.
#[export] Instance result_bind {E} : MBind (result E) :=
  fun _ _ k r => match r with Ok a => k a | Err e => Err e end.

(** ** JS strings: membership of a character and [String.prototype.split] *)

Fixpoint char_in (c : ascii) (s : string) : bool :=
  match s with
  | EmptyString => false
  | String a s' => Ascii.eqb a c || char_in c s'
  end.

(** [s.split(c)] for a one-character separator [c]: the pieces between the
    occurrences of [c], so that [""] gives [[""]] and ["a."] gives
    [["a"; ""]]. *)
Fixpoint js_split (c : ascii) (s : string) : list string :=
  match s with
  | EmptyString => [EmptyString]
  | String a s' =>
      if Ascii.eqb a c then EmptyString :: js_split c s'
      else match js_split c s' with
           | [] => [String a EmptyString]
           | w :: ws => String a w :: ws
           end
  end.

(** [arr.join(sep)]: the Standard Library's [String.concat] is exactly it. *)
Abbreviation js_join := String.concat.


(** ** Lemmas on string append *)

Lemma str_app_nil_r s : s +++ EmptyString = s.
Proof. induction s; simpl; congruence. Qed.

Lemma str_app_assoc s1 s2 s3 : (s1 +++ s2) +++ s3 = s1 +++ s2 +++ s3.
Proof. induction s1; simpl; congruence. Qed.

Lemma str_length_app s1 s2 : String.length (s1 +++ s2) = String.length s1 + String.length s2.
Proof. induction s1; simpl; lia. Qed.

Lemma char_in_app c s1 s2 : char_in c (s1 +++ s2) = char_in c s1 || char_in c s2.
Proof. induction s1 as [|a s1 IH]; simpl; [done|]. by rewrite IH, orb_assoc. Qed.

(** The rewriting database of the development: the equations on strings
    that normalize appends and lengths. *)
Create HintDb relc discriminated.
Create Rewrite HintDb relc.
#[export] Hint Rewrite str_app_nil_r str_app_assoc str_length_app char_in_app : relc.

(** ** Lemmas on split and join *)

Lemma js_split_nonnil c s : js_split c s <> [].
Proof.
  induction s as [|a s IH]; simpl; [done|].
  destruct (Ascii.eqb a c); [done|]. by destruct (js_split c s).
Qed.

Lemma js_join_cons sep w ws :
  ws <> [] -> js_join sep (w :: ws) = w +++ sep +++ js_join sep ws.
Proof. by destruct ws. Qed.

(** No piece of a split contains the separator. *)
Lemma js_split_pieces c s : Forall (fun w => char_in c w = false) (js_split c s).
Proof.
  induction s as [|a s IH]; simpl; [by repeat constructor|].
  destruct (Ascii.eqb_spec a c) as [->|Hne]; [by constructor|].
  destruct (js_split c s) as [|w ws]; [by repeat constructor; simpl; rewrite (proj2 (Ascii.eqb_neq _ _) Hne)|].
  inversion IH; subst. constructor; [|done]. simpl.
  by rewrite (proj2 (Ascii.eqb_neq _ _) Hne).
Qed.

Lemma js_split_prefix c w r :
  char_in c w = false ->
  js_split c (w +++ r) = (w +++ hd EmptyString (js_split c r)) :: tl (js_split c r).
Proof.
  intros Hw. induction w as [|a w IH]; simpl in *.
  - by destruct (js_split c r) eqn:E; [destruct (js_split_nonnil c r)|].
  - apply orb_false_iff in Hw as [Ha Hw]. rewrite Ha, IH by done. done.
Qed.

(** Splitting a join of separator-free pieces gives the pieces back. *)
Lemma js_split_join c ws :
  ws <> [] -> Forall (fun w => char_in c w = false) ws ->
  js_split c (js_join (String c EmptyString) ws) = ws.
Proof.
  induction ws as [|w ws IH]; intros Hne Hws; [done|].
  inversion Hws as [|? ? Hw Hrest]; subst.
  destruct ws as [|w' ws'].
  - simpl. rewrite <- (str_app_nil_r w) at 1.
    rewrite js_split_prefix by done. simpl. by rewrite str_app_nil_r.
  - rewrite js_join_cons by done.
    rewrite js_split_prefix by done. simpl. rewrite Ascii.eqb_refl. simpl.
    rewrite str_app_nil_r. f_equal. by apply IH.
Qed.

(** ** Lemmas on lists updated at an index ([arr[i] = f(arr[i])]) *)

(** [simpl] unfolds stdpp's [alter] on lists to [list_alter]; fold it back. *)
Ltac fold_alter :=
  repeat match goal with
  | |- context [list_alter ?g ?i ?l] => change (list_alter g i l) with (alter g i l)
  | H : context [list_alter ?g ?i ?l] |- _ => change (list_alter g i l) with (alter g i l) in H
  end.

(** Case analysis on every [bool_decide] of the goal, then boolean algebra. *)
Ltac bool_cases :=
  repeat case_bool_decide; subst; simpl; try congruence; try btauto.

Section alter_lemmas.
Context {A : Type}.
Implicit Types (l : list A) (g : A -> A).

Lemma existsb_alter (f : A -> bool) g i l x b :
  l !! i = Some x -> f (g x) = f x || b ->
  existsb f (alter g i l) = existsb f l || b.
Proof.
  revert i. induction l as [|y l IH]; intros [|i] Hx Hg; simpl in *; fold_alter; try done.
  - injection Hx as ->. rewrite Hg. btauto.
  - rewrite (IH i Hx Hg). btauto.
Qed.

Lemma forallb_alter (f : A -> bool) g i l :
  (forall x, f x = true -> f (g x) = true) ->
  forallb f l = true -> forallb f (alter g i l) = true.
Proof.
  intros Hg. revert i. induction l as [|y l IH]; intros [|i] Hl; simpl in *; fold_alter; try done;
    apply andb_true_iff in Hl as [Hy Hl]; apply andb_true_iff; auto.
Qed.

Lemma map_alter_same {B} (h : A -> B) g i l :
  (forall x, h (g x) = h x) -> map h (alter g i l) = map h l.
Proof.
  intros Hg. revert i. induction l as [|y l IH]; intros [|i]; simpl; fold_alter; f_equal; auto.
Qed.

Lemma list_sum_map_alter (h : A -> nat) g i l x :
  l !! i = Some x ->
  list_sum (map h (alter g i l)) + h x = list_sum (map h l) + h (g x).
Proof.
  revert i. induction l as [|y l IH]; intros [|i] Hx; simpl in *; fold_alter; try done.
  - injection Hx as ->. lia.
  - specialize (IH i Hx). lia.
Qed.
End alter_lemmas.

Lemma list_sum_cons x l : list_sum (x :: l) = x + list_sum l.
Proof. reflexivity. Qed.

(** The length of a join with a one-character separator. *)
Lemma js_join_length a ws :
  ws <> [] ->
  String.length (js_join (String a EmptyString) ws) + 1 =
  list_sum (map String.length ws) + length ws.
Proof.
  induction ws as [|w ws IH]; intros Hne; [done|].
  destruct ws as [|w' ws']; [simpl; lia|].
  rewrite js_join_cons by done. rewrite !str_length_app.
  specialize (IH ltac:(done)). cbn [String.length map list_sum fold_right length] in *. lia.
Qed.

(** ** Lists related pointwise, and boolean search up to permutation *)

Lemma existsb_permutation {A} (f : A -> bool) (l1 l2 : list A) :
  Permutation l1 l2 -> existsb f l1 = existsb f l2.
Proof. induction 1; simpl; try btauto; congruence. Qed.

Lemma existsb_concat_map {A B} (g : B -> bool) (f : A -> list B) l :
  existsb g (concat (map f l)) = existsb (fun x => existsb g (f x)) l.
Proof. induction l; simpl; [done|]. by rewrite existsb_app, IHl. Qed.

Lemma forallb_concat_map {A B} (f : B -> bool) (g : A -> list B) l :
  forallb f (concat (map g l)) = forallb (fun x => forallb f (g x)) l.
Proof. induction l as [|x l IH]; simpl; [done|]. by rewrite forallb_app, IH. Qed.

Lemma Forall_Forall2_exists {A B} (P : A -> B -> Prop) l :
  Forall (fun x => exists y, P x y) l -> exists l', Forall2 P l l'.
Proof.
  induction 1 as [|x l [y Hy] _ [l' IH]]; [by exists []|]. exists (y :: l'). by constructor.
Qed.

Lemma Forall2_In_l {A B} (P : A -> B -> Prop) l1 l2 x :
  Forall2 P l1 l2 -> In x l1 -> exists y, In y l2 /\ P x y.
Proof.
  induction 1 as [|a b l1 l2 Hab _ IH]; [done|]. intros [<-|Hx]; [exists b; by split; [left|]|].
  destruct (IH Hx) as (y & ? & ?). exists y. split; [by right|done].
Qed.

Lemma Forall2_In_r {A B} (P : A -> B -> Prop) l1 l2 y :
  Forall2 P l1 l2 -> In y l2 -> exists x, In x l1 /\ P x y.
Proof.
  induction 1 as [|a b l1 l2 Hab _ IH]; [done|]. intros [<-|Hy]; [exists a; by split; [left|]|].
  destruct (IH Hy) as (x & ? & ?). exists x. split; [by right|done].
Qed.

Lemma Forall2_map_eq {A B C} (P : A -> B -> Prop) (f : A -> C) (g : B -> C) l1 l2 :
  (forall x y, P x y -> f x = g y) -> Forall2 P l1 l2 -> map f l1 = map g l2.
Proof. intros H. induction 1; simpl; f_equal; auto. Qed.

Lemma NoDup_map_inv' {A B} (f : A -> B) l : NoDup (map f l) -> NoDup l.
Proof. rewrite !NoDup_ListNoDup. apply List.NoDup_map_inv. Qed.

(** Elements of a list with pairwise distinct keys are equal when their keys are. *)
Lemma NoDup_map_inj {A B} (f : A -> B) l x y :
  NoDup (map f l) -> In x l -> In y l -> f x = f y -> x = y.
Proof.
  induction l as [|a l IH]; intros Hnd Hx Hy Hf; [done|]. simpl in Hnd.
  apply NoDup_cons in Hnd as [Ha Hnd]. rewrite list_elem_of_In in Ha.
  destruct Hx as [<-|Hx], Hy as [<-|Hy]; auto.
  - destruct Ha. rewrite Hf. by apply in_map.
  - destruct Ha. rewrite <- Hf. by apply in_map.
Qed.
