(* ===== verification/Ast.v ===== *)
(** * The predicate AST consumed by the relation compiler

    [Node] and [AliasMap] come from [types/search], which is not among the
    repository files under src/: they are modelled from the spec (section 3)
    and from the way [src/lib/compiler/relation.ts] reads them
    ([node.type], [node.constraints], [node.args.identifier]).

    The identifier field of a comparison is a JS value, not a string: the
    compiler overwrites it with [aliases[identifier]], which is any property
    of a plain JS object, inherited ones included. *)

From S2P Require Import Prelude.
From Stdlib Require Import ZArith.

(** The JS values an identifier field can hold after aliasing. *)
Inductive JsValue : Type :=
| JsString (s : string)
| JsFunction (fname : string)   (* a built-in method of Object.prototype *)
| JsObject                      (* Object.prototype itself, via __proto__ *)
| JsUndefined.

(** The comparable scalar of a comparison. *)
Inductive Scalar : Type :=
| SNumber (z : Z)
| SString (s : string).

Record ComparisonArgs : Type := mkArgs {
  identifier : JsValue;
  value : Scalar
}.

(** A node of the predicate AST: its [type] tag selects the variant; a tag
    other than ["logical"] and ["comparison"] is kept as [Unrecognized]. *)
Unset Elimination Schemes.
Inductive Node : Type :=
| Logical (operator : string) (constraints : list Node)
| Comparison (operator : string) (args : ComparisonArgs)
| Unrecognized (type_tag : string).
Set Elimination Schemes.

(** Induction over nodes with the hypothesis on every constraint. *)
Section Node_ind.
Variable P : Node -> Prop.
Hypothesis P_logical : forall op cs, Forall P cs -> P (Logical op cs).
Hypothesis P_comparison : forall op args, P (Comparison op args).
Hypothesis P_unrecognized : forall tag, P (Unrecognized tag).

Fixpoint Node_ind (n : Node) : P n :=
  match n with
  | Logical op cs =>
      P_logical op cs
        ((fix go (l : list Node) : Forall P l :=
            match l with
            | [] => List.Forall_nil P
            | c :: l' => List.Forall_cons P c l' (Node_ind c) (go l')
            end) cs)
  | Comparison op args => P_comparison op args
  | Unrecognized tag => P_unrecognized tag
  end.
End Node_ind.

(** The alias map is a plain JS object literal ([{ salary: 'salaries.salary' }]):
    its own properties, string-valued, with [Object.prototype] behind them. *)
Record AliasMap : Type := mkAliases { own_props : gmap string string }.

(** The comparison leaves of a node, in traversal order. *)
Fixpoint comparisons (n : Node) : list ComparisonArgs :=
  match n with
  | Logical _ cs => concat (map comparisons cs)
  | Comparison _ args => [args]
  | Unrecognized _ => []
  end.

(** [typeof v === 'string']. *)
Definition is_js_string (v : JsValue) : bool :=
  match v with JsString _ => true | _ => false end.

(** The AST has the type [types/search] gives it: every comparison's
    identifier is a string. *)
Fixpoint node_well_typed (n : Node) : bool :=
  match n with
  | Logical _ cs => forallb node_well_typed cs
  | Comparison _ args => is_js_string (identifier args)
  | Unrecognized _ => true
  end.
