(* ===== verification/Alias.v ===== *)
(** * Alias resolution (relation.ts, lines 24-29)

    [buildTree] reads [identifier] from a comparison and, when an alias map
    is given and [identifier in aliases], replaces it by [aliases[identifier]].
    The alias map is a plain object, so [in] and the property read both see
    the properties it inherits from [Object.prototype]: the names below are
    the own properties of [Object.prototype] in Node.js, and reading one of
    them yields a function (or, for [__proto__], an object), never a string. *)

From S2P Require Import Prelude Ast.

Module Alias.

(** The own property names of [Object.prototype] (ECMAScript 2022, Annex B
    accessors included). *)
Definition object_prototype_keys : list string :=
  ["constructor"; "__defineGetter__"; "__defineSetter__"; "hasOwnProperty";
   "__lookupGetter__"; "__lookupSetter__"; "isPrototypeOf";
   "propertyIsEnumerable"; "toString"; "valueOf"; "__proto__";
   "toLocaleString"].

(** ToPropertyKey of the value held in [identifier]: a string is itself; a
    built-in function prints as its native source text. *)
Definition to_property_key (v : JsValue) : string :=
  match v with
  | JsString s => s
  | JsFunction f => "function " +++ f +++ "() { [native code] }"
  | JsObject => "[object Object]"
  | JsUndefined => "undefined"
  end.

(** [k in aliases]: an own property or one inherited from [Object.prototype]. *)
Definition js_in (k : string) (m : AliasMap) : bool :=
  bool_decide (is_Some (own_props m !! k)) || bool_decide (k ∈ object_prototype_keys).

(** [aliases[k]]. *)
Definition js_get (m : AliasMap) (k : string) : JsValue :=
  match own_props m !! k with
  | Some v => JsString v
  | None =>
      if bool_decide (k = "__proto__") then JsObject
      else if bool_decide (k ∈ object_prototype_keys) then JsFunction k
      else JsUndefined
  end.

(** Lines 27-29: [if (aliases && identifier in aliases)
    node.args.identifier = aliases[identifier];] — the new identifier. *)
Definition resolve_alias (aliases : option AliasMap) (identifier : JsValue) : JsValue :=
  match aliases with
  | Some m =>
      let k := to_property_key identifier in
      if js_in k m then js_get m k else identifier
  | None => identifier
  end.

(** ** Lemmas *)

Lemma resolve_alias_own m k v :
  own_props m !! k = Some v -> resolve_alias (Some m) (JsString k) = JsString v.
Proof.
  intros H. unfold resolve_alias, js_in, js_get; simpl. rewrite H.
  rewrite bool_decide_true by done. done.
Qed.

Lemma resolve_alias_absent m k :
  own_props m !! k = None -> k ∉ object_prototype_keys ->
  resolve_alias (Some m) (JsString k) = JsString k.
Proof.
  intros H Hk. unfold resolve_alias, js_in; simpl. rewrite H.
  rewrite !bool_decide_false by (done || by intros []). done.
Qed.

Lemma resolve_alias_inherited m k :
  own_props m !! k = None -> k ∈ object_prototype_keys ->
  resolve_alias (Some m) (JsString k) =
    if bool_decide (k = "__proto__") then JsObject else JsFunction k.
Proof.
  intros H Hk. unfold resolve_alias, js_in, js_get; simpl. rewrite H.
  rewrite (bool_decide_true (k ∈ _)) by done. by rewrite orb_true_r.
Qed.

(** C4: Alias resolution of a string identifier yields a string [s] exactly
    when [s] is the identifier's own alias, or the identifier has no own alias,
    is not a property of [Object.prototype], and [s] is the identifier itself.
    In particular a missing key is not an error, one hop only is taken, and an
    inherited name such as ["toString"] is replaced by a non-string. *)
Theorem resolve_alias_string_iff m k s :
  resolve_alias (Some m) (JsString k) = JsString s <->
  own_props m !! k = Some s \/
  (own_props m !! k = None /\ (k ∉ object_prototype_keys) /\ s = k).
Proof.
  destruct (own_props m !! k) as [v|] eqn:Hown.
  - rewrite (resolve_alias_own _ _ _ Hown). split; [intros [= ->]|intros [[= ->]|[[=] _]]]; auto.
  - destruct (decide (k ∈ object_prototype_keys)) as [Hk|Hk].
    + rewrite (resolve_alias_inherited _ _ Hown Hk).
      split; [by case_bool_decide|intros [[=]|(_ & ? & _)]; done].
    + rewrite (resolve_alias_absent _ _ Hown Hk).
      split; [intros [= ->]; auto|intros [[=]|(_ & _ & ->)]; done].
Qed.

End Alias.
