(* ===== verification/RelationTree.v ===== *)
(** * The relation tree and the find-or-create walk (relation.ts, lines 3, 15, 30-43)

    [RelationNode] is the TS type [{ name: string; children: RelationNode[] }].
    The builder walks a reference [top] from the root down the tree, one
    token at a time, pushing a fresh child when no child has the token's
    name.  The walk is modelled twice:
    - [walk] follows the code: the tree is a store, [top] is the address of
      a node in it (a list of child indices), [find] scans the children and
      [push] appends at index [length - 1];
    - [insert_path] is the recursive find-or-create reference.
    They are proved equal below, and the later theorems are stated on
    [insert_path]: the path-set semantics [has_path] and its equivalence
    [≡], and the invariant that siblings have distinct names, kept by
    [insert_path] and by each iteration of the loop; the number of nodes an
    insertion adds (one per segment whose prefix is new) and when it leaves
    the tree unchanged.  Canonicity up to sibling order is in TreeCanon. *)

From S2P Require Import Prelude.

Unset Elimination Schemes.
Inductive RelationNode : Type := mkNode {
  name : string;
  children : list RelationNode
}.
Set Elimination Schemes.

Section RelationNode_ind.
Variable P : RelationNode -> Prop.
Hypothesis P_node : forall n cs, Forall P cs -> P (mkNode n cs).

Fixpoint RelationNode_ind (t : RelationNode) : P t :=
  match t with
  | mkNode n cs =>
      P_node n cs
        ((fix go (l : list RelationNode) : Forall P l :=
            match l with
            | [] => List.Forall_nil P
            | c :: l' => List.Forall_cons P c l' (RelationNode_ind c) (go l')
            end) cs)
  end.
End RelationNode_ind.

(** Line 15: [this.tree = { name: '', children: [] }]. *)
Definition empty_root : RelationNode := mkNode "" [].

(** Line 33: [top.children.find((child) => child.name === tokens[i])], as the
    index of the first child with that name. *)
Definition find_child (tok : string) (cs : list RelationNode) : option nat :=
  fst <$> list_find (fun c => name c = tok) cs.

(** ** The walk of the code: a store and a reference into it *)

(** The node at address [a] (a path of child indices from the root). *)
Fixpoint node_at (t : RelationNode) (a : list nat) : option RelationNode :=
  match a with
  | [] => Some t
  | i :: a' => children t !! i ≫= fun c => node_at c a'
  end.

(** Update in place of the node at address [a]. *)
Fixpoint update_at (f : RelationNode -> RelationNode) (a : list nat) (t : RelationNode)
  : RelationNode :=
  match a with
  | [] => f t
  | i :: a' => mkNode (name t) (alter (update_at f a') i (children t))
  end.

(** [top.children.push(c)]: the node with [c] appended, and the new length
    that [push] returns. *)
Definition push_child (c : RelationNode) (n : RelationNode) : RelationNode * nat :=
  (mkNode (name n) (children n ++ [c]), length (children n ++ [c])).

(** The loop state: the shared tree and the reference [top]. *)
Record WalkState : Type := mkWalk { tree : RelationNode; top : list nat }.

(** One iteration of the loop body, lines 33-42: find the child named [tok];
    if there is none, push [{ name: tok, children: [] }] and let [top] be
    [top.children[push(...) - 1]]; otherwise let [top] be the child found. *)
Definition walk_step (st : WalkState) (tok : string) : WalkState :=
  match node_at (tree st) (top st) with
  | None => st
  | Some cur =>
      match find_child tok (children cur) with
      | None =>
          let '(_, new_len) := push_child (mkNode tok []) cur in
          mkWalk (update_at (fun n => fst (push_child (mkNode tok []) n)) (top st) (tree st))
                 (top st ++ [new_len - 1])
      | Some i => mkWalk (tree st) (top st ++ [i])
      end
  end.

(** Line 32: [for (let i = 0; i < tokens.length - 1; ++i)] visits every token
    but the last (the field name). *)
Definition relation_tokens (tokens : list string) : list string :=
  take (length tokens - 1) tokens.

(** Lines 31-43: [let top = this.tree] and the loop; the tree afterwards. *)
Definition walk (tokens : list string) (t : RelationNode) : RelationNode :=
  tree (fold_left walk_step (relation_tokens tokens) (mkWalk t [])).

(** ** The recursive reference: find-or-create along a path *)

Fixpoint insert_path (toks : list string) (t : RelationNode) : RelationNode :=
  match toks with
  | [] => t
  | tok :: rest =>
      mkNode (name t)
        (match find_child tok (children t) with
         | Some i => alter (insert_path rest) i (children t)
         | None => children t ++ [insert_path rest (mkNode tok [])]
         end)
  end.

(** ** The store: addresses, reads and updates *)

Lemma node_at_snoc t a i :
  node_at t (a ++ [i]) = node_at t a ≫= fun n => children n !! i.
Proof.
  revert t. induction a as [|j a IH]; intros t; simpl.
  - by destruct (children t !! i).
  - destruct (children t !! j); simpl; [apply IH|done].
Qed.

Lemma update_at_snoc f t a i :
  update_at f (a ++ [i]) t =
  update_at (fun n => mkNode (name n) (alter f i (children n))) a t.
Proof.
  revert t. induction a as [|j a IH]; intros t; simpl; [done|].
  f_equal. apply list_alter_ext; [intros; apply IH|done].
Qed.

Lemma update_at_compose f g a t :
  update_at f a (update_at g a t) = update_at (f ∘ g) a t.
Proof.
  revert t. induction a as [|j a IH]; intros t; simpl; [done|].
  f_equal. rewrite list_alter_alter_eq.
  apply list_alter_ext; [intros; apply IH|done].
Qed.

(** Two updates that agree on the node at the address agree. *)
Lemma update_at_ext f g a t n :
  node_at t a = Some n -> f n = g n -> update_at f a t = update_at g a t.
Proof.
  revert t. induction a as [|j a IH]; intros t Hn Hfg; simpl in *.
  - by injection Hn as ->.
  - destruct (children t !! j) as [c|] eqn:Hc; simpl in Hn; [|done].
    f_equal. apply list_alter_ext; [|done].
    intros x Hx. rewrite Hc in Hx. injection Hx as <-. by apply IH.
Qed.

Lemma update_at_id a t : update_at id a t = t.
Proof.
  revert t. induction a as [|j a IH]; intros [n cs]; simpl; [done|].
  f_equal. by apply list_alter_id.
Qed.

Lemma node_at_update_at f a t n :
  node_at t a = Some n -> node_at (update_at f a t) a = Some (f n).
Proof.
  revert t. induction a as [|j a IH]; intros t Hn; simpl in *; [congruence|].
  rewrite list_lookup_alter_eq.
  destruct (children t !! j) as [c|]; simpl in *; [by apply IH|done].
Qed.

Lemma find_child_Some tok cs i :
  find_child tok cs = Some i -> exists c, cs !! i = Some c /\ name c = tok.
Proof.
  unfold find_child. destruct (list_find _ cs) as [[j c]|] eqn:E; [|done].
  intros [= <-]. apply list_find_Some in E as (? & ? & _). eauto.
Qed.

Lemma find_child_None tok cs :
  find_child tok cs = None -> Forall (fun c => name c <> tok) cs.
Proof.
  unfold find_child. destruct (list_find _ cs) eqn:E; [done|].
  intros _. by apply (proj1 (list_find_None _ _)) in E.
Qed.

Lemma walk_step_found st tok n i :
  node_at (tree st) (top st) = Some n -> find_child tok (children n) = Some i ->
  walk_step st tok = mkWalk (tree st) (top st ++ [i]).
Proof. intros Hn Hf. unfold walk_step. by rewrite Hn, Hf. Qed.

Lemma walk_step_new st tok n :
  node_at (tree st) (top st) = Some n -> find_child tok (children n) = None ->
  walk_step st tok =
    mkWalk (update_at (fun m => fst (push_child (mkNode tok []) m)) (top st) (tree st))
           (top st ++ [length (children n)]).
Proof.
  intros Hn Hf. unfold walk_step. rewrite Hn, Hf; simpl.
  by rewrite length_app, Nat.add_sub.
Qed.

(** The loop run from address [a] updates the store at [a] by the
    find-or-create insertion of the remaining tokens. *)
Lemma walk_fold_update toks t a n :
  node_at t a = Some n ->
  tree (fold_left walk_step toks (mkWalk t a)) = update_at (insert_path toks) a t.
Proof.
  revert t a n. induction toks as [|tok rest IH]; intros t a n Hn; simpl.
  - symmetry. apply update_at_id.
  - destruct (find_child tok (children n)) as [i|] eqn:Hf.
    + rewrite (walk_step_found (mkWalk t a) _ n i Hn Hf); cbn [tree top].
      destruct (find_child_Some _ _ _ Hf) as (c & Hc & _).
      rewrite (IH t (a ++ [i]) c) by (rewrite node_at_snoc, Hn; done).
      rewrite update_at_snoc. apply (update_at_ext _ _ _ _ n Hn). simpl. by rewrite Hf.
    + rewrite (walk_step_new (mkWalk t a) _ n Hn Hf); cbn [tree top].
      rewrite (IH _ _ (mkNode tok [])).
      2:{ rewrite node_at_snoc, (node_at_update_at _ _ _ n Hn); simpl.
          by rewrite lookup_app_r, Nat.sub_diag by lia. }
      rewrite update_at_snoc, update_at_compose.
      apply (update_at_ext _ _ _ _ n Hn). simpl. rewrite Hf.
      f_equal. rewrite alter_app_r_alt, Nat.sub_diag by lia. done.
Qed.

Lemma walk_eq_insert_path tokens t :
  walk tokens t = insert_path (relation_tokens tokens) t.
Proof. unfold walk. by rewrite (walk_fold_update _ t [] t). Qed.

(** C2: The loop of [buildTree] (a reference [top] walking a shared tree,
    pushing fresh children) leaves the tree that the recursive find-or-create
    insertion of all tokens but the last produces. *)
Theorem walk_insert_path tokens t :
  walk tokens t = insert_path (relation_tokens tokens) t.
Proof. apply walk_eq_insert_path. Qed.

(** ** What a tree denotes: the set of relation paths it contains *)

(** [has_path p t]: the names [p] lead from [t] down through its children. *)
Fixpoint has_path (p : list string) (t : RelationNode) : bool :=
  match p with
  | [] => true
  | s :: p' => existsb (fun c => bool_decide (name c = s) && has_path p' c) (children t)
  end.

(** [is_prefix q p]: [q] is a prefix of [p]. *)
Fixpoint is_prefix (q p : list string) : bool :=
  match q, p with
  | [], _ => true
  | x :: q', y :: p' => bool_decide (x = y) && is_prefix q' p'
  | _ :: _, [] => false
  end.

(** The invariant of the spec: no two siblings share a name, at any depth. *)
Fixpoint siblings_unique (t : RelationNode) : bool :=
  match t with
  | mkNode _ cs => bool_decide (NoDup (map name cs)) && forallb siblings_unique cs
  end.

(** The number of nodes of a tree. *)
Fixpoint node_count (t : RelationNode) : nat :=
  match t with
  | mkNode _ cs => S (list_sum (map node_count cs))
  end.

(** The non-empty prefixes of a path, shortest first. *)
Fixpoint prefixes (p : list string) : list (list string) :=
  match p with
  | [] => []
  | s :: p' => [s] :: map (cons s) (prefixes p')
  end.

(** How many of them the tree already contains: the depth to which the path
    is already joined. *)
Definition present_prefixes (p : list string) (t : RelationNode) : nat :=
  length (List.filter (fun q => has_path q t) (prefixes p)).

Lemma name_insert_path p t : name (insert_path p t) = name t.
Proof. by destruct p. Qed.

Lemma has_path_leaf q n : has_path q (mkNode n []) = bool_decide (q = []).
Proof. by destruct q. Qed.

(** The child-name guard of [has_path] only depends on the name. *)
Lemma has_path_step_insert s q' p' c :
  (forall t, has_path q' (insert_path p' t) = has_path q' t || is_prefix q' p') ->
  (bool_decide (name (insert_path p' c) = s) && has_path q' (insert_path p' c)) =
  (bool_decide (name c = s) && has_path q' c) || (bool_decide (name c = s) && is_prefix q' p').
Proof. intros IH. rewrite name_insert_path, IH. btauto. Qed.

Lemma is_prefix_nil_or q p : bool_decide (q = []) || is_prefix q p = is_prefix q p.
Proof. by destruct q. Qed.

Lemma has_path_insert p q t :
  has_path q (insert_path p t) = has_path q t || is_prefix q p.
Proof.
  revert q t. induction p as [|s p' IH]; intros q t.
  - destruct q; simpl; [done|by rewrite orb_false_r].
  - destruct q as [|x q']; [done|]. destruct t as [n cs]. cbn [insert_path has_path children is_prefix].
    destruct (find_child s cs) as [i|] eqn:Hf.
    + destruct (find_child_Some _ _ _ Hf) as (c & Hc & <-).
      apply (existsb_alter _ _ i cs c _ Hc).
      rewrite has_path_step_insert by apply IH. bool_cases.
    + rewrite existsb_app. cbn [existsb].
      rewrite name_insert_path, IH, has_path_leaf, is_prefix_nil_or. cbn [name]. bool_cases.
Qed.

(** ** [find] on the children *)

Lemma find_child_cons tok c cs :
  find_child tok (c :: cs) =
    if decide (name c = tok) then Some 0 else S <$> find_child tok cs.
Proof.
  unfold find_child; simpl. case_decide; [done|].
  by destruct (list_find _ cs) as [[]|].
Qed.

(** [find] only looks at the children's names. *)
Lemma find_child_names tok cs1 cs2 :
  map name cs1 = map name cs2 -> find_child tok cs1 = find_child tok cs2.
Proof.
  revert cs2. induction cs1 as [|c1 cs1 IH]; intros [|c2 cs2] Hn; try done.
  injection Hn as Hc Hcs. rewrite !find_child_cons, Hc. by rewrite (IH cs2).
Qed.

Lemma find_child_snoc tok cs x :
  find_child tok cs = None -> name x = tok -> find_child tok (cs ++ [x]) = Some (length cs).
Proof.
  intros Hf Hx. induction cs as [|c cs IH]; simpl.
  - by rewrite find_child_cons, decide_True.
  - rewrite find_child_cons in *. case_decide; [done|].
    destruct (find_child tok cs); [done|]. by rewrite IH.
Qed.

Lemma names_alter_insert_path p i cs :
  map name (alter (insert_path p) i cs) = map name cs.
Proof. apply map_alter_same, name_insert_path. Qed.

Lemma alter_snoc {A} (f : A -> A) (l : list A) x :
  alter f (length l) (l ++ [x]) = l ++ [f x].
Proof. by rewrite alter_app_r_alt, Nat.sub_diag by lia. Qed.

Lemma siblings_unique_node n cs :
  siblings_unique (mkNode n cs) = true <->
  NoDup (map name cs) /\ forall c, In c cs -> siblings_unique c = true.
Proof.
  cbn [siblings_unique]. rewrite andb_true_iff, bool_decide_eq_true, forallb_forall. done.
Qed.

(** Below a root with distinct child names, the paths through a child are
    the child's own paths. *)
Lemma has_path_child n cs c q :
  NoDup (map name cs) -> In c cs -> has_path (name c :: q) (mkNode n cs) = has_path q c.
Proof.
  intros Hnd Hc. cbn [has_path children]. destruct (has_path q c) eqn:E.
  - apply existsb_exists. exists c. by rewrite bool_decide_eq_true_2.
  - apply not_true_iff_false. intros (c' & Hc' & Hf)%existsb_exists.
    apply andb_true_iff in Hf as [Hn%bool_decide_eq_true Hq].
    rewrite (NoDup_map_inj name cs c' c Hnd Hc' Hc Hn) in Hq. congruence.
Qed.

(** ** The invariant and the algebra of insertion *)

Lemma siblings_unique_insert p t :
  siblings_unique t = true -> siblings_unique (insert_path p t) = true.
Proof.
  revert t. induction p as [|s p IH]; intros [n cs] Ht; [done|].
  cbn [insert_path name children siblings_unique] in *.
  apply andb_true_iff in Ht as [Hnd Hall]. apply andb_true_iff.
  destruct (find_child s cs) as [i|] eqn:Hf.
  - rewrite names_alter_insert_path. split; [done|]. by apply forallb_alter.
  - rewrite map_app, forallb_app. simpl. rewrite name_insert_path, IH by done.
    apply bool_decide_eq_true in Hnd. split; [|by rewrite Hall].
    apply bool_decide_eq_true, NoDup_app. split_and!; [done| |by constructor; [set_solver|constructor]].
    intros x Hx ->%list_elem_of_singleton. apply list_elem_of_In, in_map_iff in Hx as (c & Hc & Hin).
    apply find_child_None in Hf. rewrite List.Forall_forall in Hf. by apply (Hf c).
Qed.

(** C6: Inserting the same path twice is the same as inserting it once: a
    relation referenced by several comparisons is joined once. *)
Theorem insert_path_idempotent p t :
  insert_path p (insert_path p t) = insert_path p t.
Proof.
  revert t. induction p as [|s p IH]; intros [n cs]; [done|].
  cbn [insert_path name children]. f_equal.
  destruct (find_child s cs) as [i|] eqn:Hf.
  - rewrite (find_child_names _ _ cs), Hf by apply names_alter_insert_path.
    rewrite list_alter_alter_eq. apply list_alter_ext; [|done]. intros x _. apply IH.
  - rewrite (find_child_snoc _ _ _ Hf) by apply name_insert_path.
    by rewrite alter_snoc, IH.
Qed.

(** ** How much a path adds *)

Lemma length_filter_map {A B} (f : B -> bool) (g : A -> B) l :
  length (List.filter f (map g l)) = length (List.filter (fun x => f (g x)) l).
Proof. induction l as [|x l IH]; simpl; [done|]. destruct (f (g x)); simpl; lia. Qed.

Lemma filter_all_false {A} (f : A -> bool) l :
  (forall x, In x l -> f x = false) -> List.filter f l = [].
Proof.
  intros H. rewrite (filter_ext_in f (fun _ => false)); [apply filter_false|]. apply H.
Qed.

Lemma prefixes_nonempty p q : In q (prefixes p) -> q <> [].
Proof. destruct p; simpl; [done|]. by intros [<-|(q' & <- & _)%in_map_iff]. Qed.

(** No path through a name the children do not have. *)
Lemma has_path_absent s q n cs :
  find_child s cs = None -> has_path (s :: q) (mkNode n cs) = false.
Proof.
  intros Hf%find_child_None. cbn [has_path children]. apply not_true_iff_false.
  intros (c & Hc & [Hn%bool_decide_eq_true _]%andb_true_iff)%existsb_exists.
  rewrite List.Forall_forall in Hf. by apply (Hf c).
Qed.

Lemma present_prefixes_cons s p n cs :
  present_prefixes (s :: p) (mkNode n cs) =
    length (List.filter (fun q => has_path (s :: q) (mkNode n cs)) ([] :: prefixes p)).
Proof.
  unfold present_prefixes. cbn [prefixes].
  change ([s] :: map (cons s) (prefixes p)) with (map (cons s) ([] :: prefixes p)).
  by rewrite length_filter_map.
Qed.

Lemma present_prefixes_leaf p n : present_prefixes p (mkNode n []) = 0.
Proof.
  unfold present_prefixes. rewrite filter_all_false; [done|].
  intros q Hq. rewrite has_path_leaf. apply bool_decide_eq_false_2. by apply (prefixes_nonempty p).
Qed.

Lemma insert_path_node_count_exact p t :
  siblings_unique t = true ->
  node_count (insert_path p t) + present_prefixes p t = node_count t + length p.
Proof.
  revert t. induction p as [|s p IH]; intros [n cs] Hu; [done|].
  apply siblings_unique_node in Hu as [Hnd Hall]. rewrite present_prefixes_cons.
  cbn [insert_path name children]. destruct (find_child s cs) as [i|] eqn:Hf.
  - destruct (find_child_Some _ _ _ Hf) as (c & Hc & <-).
    assert (In c cs) as Hin by (apply list_elem_of_In; by eapply list_elem_of_lookup_2).
    rewrite (filter_ext_in _ (fun q => has_path q c)) by (intros q _; by apply has_path_child).
    pose proof (list_sum_map_alter node_count (insert_path p) i cs c Hc).
    specialize (IH c (Hall c Hin)). unfold present_prefixes in IH. simpl in *. lia.
  - rewrite filter_all_false by (intros q _; by apply has_path_absent).
    pose proof (IH (mkNode s []) eq_refl) as Hl. rewrite present_prefixes_leaf in Hl.
    simpl in *. rewrite map_app, list_sum_app in *. simpl in *. lia.
Qed.

(** C7: Exact growth of the plan: in a tree whose siblings have distinct
    names, inserting a path adds one node per segment that is not already
    joined: the number of nodes after, plus the number of the path's
    prefixes the tree already contains, is the number before plus the
    length of the path. *)
Theorem insert_path_node_count p t :
  siblings_unique t = true ->
  node_count (insert_path p t) + present_prefixes p t = node_count t + length p.
Proof. apply insert_path_node_count_exact. Qed.

Lemma is_prefix_refl p : is_prefix p p = true.
Proof. induction p; simpl; [done|]. by rewrite bool_decide_eq_true_2. Qed.

Lemma insert_path_present p t :
  siblings_unique t = true -> has_path p t = true -> insert_path p t = t.
Proof.
  revert t. induction p as [|s p IH]; intros [n cs] Hu Hp; [done|].
  apply siblings_unique_node in Hu as [Hnd Hall]. cbn [insert_path name children].
  destruct (find_child s cs) as [i|] eqn:Hf; [|by rewrite has_path_absent in Hp].
  destruct (find_child_Some _ _ _ Hf) as (c & Hc & <-).
  assert (In c cs) as Hin by (apply list_elem_of_In; by eapply list_elem_of_lookup_2).
  rewrite has_path_child in Hp by done. f_equal.
  rewrite (list_alter_ext (insert_path p) id cs cs i); [by apply list_alter_id| |done].
  intros x Hx. rewrite Hc in Hx. injection Hx as <-. apply IH; [by apply Hall|done].
Qed.

(** C8: Find-or-create changes the tree exactly when the path is new: in a
    tree whose siblings have distinct names, inserting a path leaves the
    tree as it is if and only if the tree already contains the path. *)
Theorem insert_path_unchanged_iff p t :
  siblings_unique t = true -> insert_path p t = t <-> has_path p t = true.
Proof.
  intros Hu. split; [|by apply insert_path_present].
  intros H. rewrite <- H, has_path_insert, is_prefix_refl. apply orb_true_r.
Qed.

(** ** Trees with the same paths *)

(** Two trees are equivalent when they contain the same relation paths:
    they denote the same join plan, whatever the order of their children. *)
#[export] Instance relation_node_equiv : Equiv RelationNode :=
  fun t1 t2 => forall q, has_path q t1 = has_path q t2.

#[export] Instance relation_node_equivalence : Equivalence (≡@{RelationNode}).
Proof.
  split.
  - by intros t q.
  - intros t1 t2 H q. by rewrite H.
  - intros t1 t2 t3 H1 H2 q. by rewrite H1, H2.
Qed.

#[export] Instance insert_path_proper p : Proper ((≡) ==> (≡)) (insert_path p).
Proof. intros t1 t2 Ht q. by rewrite !has_path_insert, Ht. Qed.

(** Insertions commute up to the order of siblings. *)
Lemma insert_path_comm p1 p2 t :
  insert_path p1 (insert_path p2 t) ≡ insert_path p2 (insert_path p1 t).
Proof. intros q. rewrite !has_path_insert. btauto. Qed.

(** Inserting a list of paths, one after the other, as the builder does. *)
Definition insert_paths (ps : list (list string)) (t : RelationNode) : RelationNode :=
  fold_left (fun acc p => insert_path p acc) ps t.

Lemma insert_paths_app ps1 ps2 t :
  insert_paths (ps1 ++ ps2) t = insert_paths ps2 (insert_paths ps1 t).
Proof. unfold insert_paths. by rewrite fold_left_app. Qed.

Lemma name_insert_paths ps t : name (insert_paths ps t) = name t.
Proof.
  revert t. induction ps as [|p ps IH]; intros t; [done|]. cbn. by rewrite IH, name_insert_path.
Qed.

Lemma has_path_insert_paths ps q t :
  has_path q (insert_paths ps t) = has_path q t || existsb (is_prefix q) ps.
Proof.
  revert t. induction ps as [|p ps IH]; intros t; simpl; [by rewrite orb_false_r|].
  unfold insert_paths in *. simpl. rewrite IH, has_path_insert. btauto.
Qed.

Lemma siblings_unique_insert_paths ps t :
  siblings_unique t = true -> siblings_unique (insert_paths ps t) = true.
Proof.
  revert t. induction ps as [|p ps IH]; intros t Ht; [done|].
  apply IH. by apply siblings_unique_insert.
Qed.

(** ** Paths of one segment: each relation joined once, in first-reference order *)

(** A childless node. *)
Definition leaf (r : string) : RelationNode := mkNode r [].

(** The names [rs] appended to [pre] in order, each one unless already there. *)
Definition add_names (pre rs : list string) : list string :=
  fold_left (fun acc r => if bool_decide (r ∈ acc) then acc else acc ++ [r]) rs pre.

Lemma add_names_incl pre rs x : x ∈ add_names pre rs -> x ∈ pre \/ x ∈ rs.
Proof.
  revert pre. induction rs as [|r rs IH]; intros pre Hx; [by left|]. cbn [add_names fold_left] in Hx.
  destruct (IH _ Hx) as [Hp|Hr]; [|right; by right].
  case_bool_decide; [by left|]. apply elem_of_app in Hp as [Hp|Hp%list_elem_of_singleton];
    [by left|subst; right; by left].
Qed.

Lemma find_child_leaves r pre :
  find_child r (map leaf pre) = None <-> r ∉ pre.
Proof.
  split.
  - intros Hf%find_child_None Hr. rewrite List.Forall_forall in Hf.
    apply (Hf (leaf r)); [apply in_map, list_elem_of_In, Hr|done].
  - intros Hr. destruct (find_child r (map leaf pre)) as [i|] eqn:Hf; [|done].
    destruct (find_child_Some _ _ _ Hf) as (c & Hc & Hn).
    apply list_lookup_fmap_Some in Hc as (x & -> & Hx%list_elem_of_lookup_2). by subst.
Qed.

Lemma insert_path_leaf_step n pre r :
  insert_path [r] (mkNode n (map leaf pre)) =
    mkNode n (map leaf (if bool_decide (r ∈ pre) then pre else pre ++ [r])).
Proof.
  cbn [insert_path name children]. case_bool_decide as Hr.
  - destruct (find_child r (map leaf pre)) as [i|] eqn:Hf; [|by apply find_child_leaves in Hf].
    f_equal. by apply list_alter_id.
  - apply find_child_leaves in Hr. by rewrite Hr, map_app.
Qed.

Lemma insert_paths_singletons n pre rs :
  insert_paths (map (fun r => [r]) rs) (mkNode n (map leaf pre)) = mkNode n (map leaf (add_names pre rs)).
Proof.
  revert pre. induction rs as [|r rs IH]; intros pre; [done|].
  change (insert_paths (map (fun r => [r]) rs) (insert_path [r] (mkNode n (map leaf pre))) =
          mkNode n (map leaf (add_names (if bool_decide (r ∈ pre) then pre else pre ++ [r]) rs))).
  by rewrite insert_path_leaf_step, IH.
Qed.

(** ** One iteration of the loop keeps the invariant *)

Lemma name_update_at f a t :
  (forall n, name (f n) = name n) -> name (update_at f a t) = name t.
Proof. intros Hf. destruct a; [apply Hf|done]. Qed.

Lemma siblings_unique_update_at f a t :
  (forall n, siblings_unique n = true -> siblings_unique (f n) = true) ->
  (forall n, name (f n) = name n) ->
  siblings_unique t = true -> siblings_unique (update_at f a t) = true.
Proof.
  intros Hu Hn. revert t. induction a as [|i a IH]; intros [m cs] Ht; [by apply Hu|].
  apply siblings_unique_node in Ht as [Hnd Hall]. cbn [update_at name children].
  apply siblings_unique_node. split.
  - rewrite map_alter_same; [done|]. intros x. by apply name_update_at.
  - intros c Hc. assert (forallb siblings_unique (alter (update_at f a) i cs) = true) as H.
    { apply forallb_alter; [apply IH|by apply forallb_forall]. }
    by apply (proj1 (forallb_forall _ _) H).
Qed.

(** The body of the loop, lines 33-42, keeps distinct sibling names. *)
Lemma walk_step_siblings_unique st tok :
  siblings_unique (tree st) = true -> siblings_unique (tree (walk_step st tok)) = true.
Proof.
  intros Hu. destruct (node_at (tree st) (top st)) as [n|] eqn:Hn.
  - destruct st as [t a]. cbn [tree top] in *.
    change (walk_step (mkWalk t a) tok) with (fold_left walk_step [tok] (mkWalk t a)).
    rewrite (walk_fold_update [tok] t a n Hn).
    apply siblings_unique_update_at; [|apply name_insert_path|done].
    intros m. apply siblings_unique_insert.
  - unfold walk_step. by rewrite Hn.
Qed.

(** ** The tree's properties *)

(** C3: Refinement of the path-set specification: after inserting [p], the
    tree contains exactly the paths it contained before and the prefixes of
    [p] — whatever the tree, duplicates included. *)
Theorem has_path_insert_path p q t :
  has_path q (insert_path p t) = has_path q t || is_prefix q p.
Proof. apply has_path_insert. Qed.

(** C5: Find-or-create preserves the spec's invariant: if no two siblings
    share a name anywhere in the tree, the same holds after inserting any
    path. *)
Theorem siblings_unique_insert_path p t :
  siblings_unique t = true -> siblings_unique (insert_path p t) = true.
Proof. apply siblings_unique_insert. Qed.

(** ** Witnesses *)

Lemma siblings_unique_insert_path_witness :
  siblings_unique (insert_path ["a"; "c"] empty_root) = true /\
  siblings_unique (insert_path ["a"; "b"] (insert_path ["a"; "c"] empty_root)) = true.
Proof.
  split; [reflexivity|].
  apply (siblings_unique_insert_path ["a"; "b"] (insert_path ["a"; "c"] empty_root)).
  reflexivity.
Defined.


Lemma insert_path_node_count_witness :
  siblings_unique (insert_path ["a"; "b"] empty_root) = true /\
  node_count (insert_path ["a"; "c"; "d"] (insert_path ["a"; "b"] empty_root)) +
    present_prefixes ["a"; "c"; "d"] (insert_path ["a"; "b"] empty_root) =
  node_count (insert_path ["a"; "b"] empty_root) + length ["a"; "c"; "d"].
Proof.
  split; [reflexivity|]. apply insert_path_node_count. reflexivity.
Defined.

Lemma insert_path_unchanged_iff_witness :
  siblings_unique (insert_path ["a"; "b"] empty_root) = true /\
  (insert_path ["a"; "b"] (insert_path ["a"; "b"] empty_root) = insert_path ["a"; "b"] empty_root <->
   has_path ["a"; "b"] (insert_path ["a"; "b"] empty_root) = true).
Proof.
  split; [reflexivity|]. apply insert_path_unchanged_iff. reflexivity.
Defined.
