(* ===== verification/TreeCanon.v ===== *)
(** * Canonicity of relation trees up to the order of siblings

    The builder's contract (RelationTree, Builder) is stated on the set of
    paths a tree contains.  This file shows that, for trees whose siblings
    have distinct names, the path set fixes the tree up to the order of the
    siblings at every level: [tree_perm] relates two trees whose child lists
    are permutations of pointwise related lists, and [≡] (same paths)
    coincides with it.  Hence the plan [insert_paths] grows from the fresh
    root is fixed, up to the order of siblings, by the prefixes of the
    paths; the order the code leaves siblings in is the order they were
    first referenced (Relation, C23). *)

From S2P Require Import Prelude RelationTree.

(** The lemmas of RelationTree that carry the invariant through the
    builder, the machine and the constructor. *)
#[export] Hint Resolve siblings_unique_insert siblings_unique_insert_paths
  walk_step_siblings_unique : relc.

(** ** Canonicity up to the order of siblings *)

(** Two trees are the same plan up to the order of siblings: the roots have
    the same name, and the second child list is a permutation of a list
    whose members are, pointwise, the same plans as the first's children. *)
Unset Elimination Schemes.
Inductive tree_perm : RelationNode -> RelationNode -> Prop :=
| tree_perm_node n cs1 cs cs2 :
    Forall2 tree_perm cs1 cs -> Permutation cs cs2 ->
    tree_perm (mkNode n cs1) (mkNode n cs2).
Set Elimination Schemes.

Lemma tree_perm_name t1 t2 : tree_perm t1 t2 -> name t1 = name t2.
Proof. by intros []. Qed.

Lemma tree_perm_equiv t1 t2 : tree_perm t1 t2 -> t1 ≡ t2.
Proof.
  revert t2. induction t1 as [n cs1 IH] using RelationNode_ind.
  intros t2 Hp. inversion Hp as [? ? cs cs2 H12 Hperm]; subst. intros [|s q]; [done|].
  cbn [has_path children]. rewrite <- (existsb_permutation _ _ _ Hperm). clear Hp Hperm.
  induction H12 as [|c1 c cs1' cs' Hc _ IHl]; [done|].
  apply List.Forall_cons_iff in IH as [IHc IH']. cbn [existsb].
  by rewrite (IHl IH'), (tree_perm_name _ _ Hc), (IHc _ Hc q).
Qed.

(** A one-segment path names a child. *)
Lemma has_path_single_In n cs s :
  has_path [s] (mkNode n cs) = true -> exists c, In c cs /\ name c = s.
Proof.
  cbn [has_path children]. intros (c & Hc & Hf)%existsb_exists. exists c.
  apply andb_true_iff in Hf as [Hn%bool_decide_eq_true _]. done.
Qed.

(** Each child of the first tree has its counterpart in the second. *)
Lemma equiv_children_match n cs1 cs2 :
  Forall (fun c1 => forall c2, siblings_unique c1 = true -> siblings_unique c2 = true ->
                      name c1 = name c2 -> c1 ≡ c2 -> tree_perm c1 c2) cs1 ->
  siblings_unique (mkNode n cs1) = true -> siblings_unique (mkNode n cs2) = true ->
  mkNode n cs1 ≡ mkNode n cs2 ->
  Forall (fun c1 => exists c2, In c2 cs2 /\ name c2 = name c1 /\ tree_perm c1 c2) cs1.
Proof.
  intros IH [Hnd1 Hu1]%siblings_unique_node [Hnd2 Hu2]%siblings_unique_node Heq.
  rewrite List.Forall_forall in IH |- *. intros c1 Hc1.
  destruct (has_path_single_In n cs2 (name c1)) as (c2 & Hc2 & Hn2).
  { rewrite <- (Heq [name c1]), has_path_child; done. }
  exists c2. split_and!; [done|done|]. apply IH; auto.
  intros q. rewrite <- (has_path_child n cs1 c1 q), (Heq (name c1 :: q)), <- Hn2; auto.
  by apply has_path_child.
Qed.

(** Canonicity: with distinct sibling names, a plan is determined by its
    set of paths and its root name, up to the order of siblings. *)
Lemma equiv_tree_perm t1 t2 :
  siblings_unique t1 = true -> siblings_unique t2 = true -> name t1 = name t2 ->
  t1 ≡ t2 -> tree_perm t1 t2.
Proof.
  revert t2. induction t1 as [n cs1 IH] using RelationNode_ind.
  intros [n2 cs2] Hu1 Hu2 Hn Heq; cbn in Hn; subst n2.
  destruct (Forall_Forall2_exists _ _ (equiv_children_match n cs1 cs2 IH Hu1 Hu2 Heq)) as [cs Hcs].
  apply siblings_unique_node in Hu1 as [Hnd1 _], Hu2 as [Hnd2 _].
  assert (map name cs1 = map name cs) as Hnames
    by (eapply Forall2_map_eq; [|exact Hcs]; by intros ? ? (_ & -> & _)).
  apply (tree_perm_node n cs1 cs cs2); [eapply Forall2_impl; [exact Hcs|]; by intros ? ? (_ & _ & ?)|].
  apply NoDup_Permutation; [apply (NoDup_map_inv' name); congruence|by apply (NoDup_map_inv' name)|].
  intros x. rewrite !list_elem_of_In. split.
  - intros Hx. by destruct (Forall2_In_r _ _ _ _ Hcs Hx) as (? & _ & ? & _).
  - intros Hx. destruct (has_path_single_In n cs1 (name x)) as (c1 & Hc1 & Hn1).
    { rewrite (Heq [name x]), has_path_child; done. }
    destruct (Forall2_In_l _ _ _ _ Hcs Hc1) as (y & Hy & Hy2 & Hny & _).
    by rewrite <- (NoDup_map_inj name cs2 y x Hnd2 Hy2 Hx ltac:(congruence)).
Qed.

(** Canonicity: with distinct sibling names and the same root name, the
    same set of paths is the same as equality up to the order of siblings. *)
Lemma tree_equiv_iff_perm t1 t2 :
  siblings_unique t1 = true -> siblings_unique t2 = true -> name t1 = name t2 ->
  t1 ≡ t2 <-> tree_perm t1 t2.
Proof. intros Hu1 Hu2 Hn. split; [by apply equiv_tree_perm|apply tree_perm_equiv]. Qed.

(** ** The theorem *)

(** C30: The plan the builder grows from the fresh root is fixed, up to the
    order of siblings, by the set of prefixes of the relation paths it
    inserts: two lists of paths give the same plan up to the order of
    siblings at every level exactly when every non-empty path is a prefix of
    a member of the one list iff it is a prefix of a member of the other.
    Only the order in which relations are first referenced is left open. *)
Theorem insert_paths_perm_iff ps1 ps2 :
  tree_perm (insert_paths ps1 empty_root) (insert_paths ps2 empty_root) <->
  (forall q, q <> [] -> existsb (is_prefix q) ps1 = existsb (is_prefix q) ps2).
Proof.
  split.
  - intros Hp [|s q] Hq; [done|]. pose proof (tree_perm_equiv _ _ Hp (s :: q)) as H.
    by rewrite !has_path_insert_paths in H.
  - intros H. apply equiv_tree_perm; [by apply siblings_unique_insert_paths..|by rewrite !name_insert_paths|].
    intros [|s q]; [done|]. rewrite !has_path_insert_paths. by apply H.
Qed.

(** ** Witnesses *)

Lemma insert_paths_perm_iff_witness :
  (forall q, q <> [] -> existsb (is_prefix q) [["a"]; ["b"; "c"]] = existsb (is_prefix q) [["b"; "c"]; ["a"]]) /\
  tree_perm (insert_paths [["a"]; ["b"; "c"]] empty_root) (insert_paths [["b"; "c"]; ["a"]] empty_root).
Proof.
  assert (forall q, q <> [] -> existsb (is_prefix q) [["a"]; ["b"; "c"]] =
                              existsb (is_prefix q) [["b"; "c"]; ["a"]]) as H.
  { intros q _. cbn [existsb]. rewrite !orb_false_r. apply orb_comm. }
  split; [exact H|]. exact (proj2 (insert_paths_perm_iff _ _) H).
Defined.
