(* ===== verification/Builder.v ===== *)
(** * The tree builder (relation.ts, [buildTree], lines 20-45)

    [buildTree node aliases] traverses the predicate AST: a logical node
    recurses into its constraints in order; a comparison rewrites its
    identifier through the alias map (mutating the AST node), splits it on
    ['.'] and walks the shared tree; a node with any other [type] tag is
    skipped.  The model threads the tree and returns the rewritten AST; a
    TypeError thrown by [split] on a non-string identifier is an [Err]. *)

From S2P Require Import Prelude Ast Alias RelationTree TreeCanon.
#[local] Set Warnings "-clear-no-such-hyp".

(** The exceptions the builder can raise. *)
Inductive JsError : Type :=
| TypeError (msg : string).

(** Line 30: [node.args.identifier.split('.')]; only strings have [split]. *)
Definition split_identifier (v : JsValue) : result JsError (list string) :=
  match v with
  | JsString s => Ok (js_split "." s)
  | JsUndefined => Err (TypeError "Cannot read properties of undefined (reading 'split')")
  | _ => Err (TypeError "node.args.identifier.split is not a function")
  end.

(** Lines 20-45.  Lines 21-22: [node.constraints.map((c) => this.buildTree(c, aliases))];
    lines 23-29: alias rewrite of [node.args.identifier]; lines 30-43: split
    and walk; a tag other than logical or comparison falls through. *)
Fixpoint buildTree (aliases : option AliasMap) (node : Node) (t : RelationNode)
  : result JsError (Node * RelationNode) :=
  match node with
  | Logical op cs =>
      '(cs', t') ←
        (fix go (l : list Node) (acc : RelationNode)
           : result JsError (list Node * RelationNode) :=
           match l with
           | [] => Ok ([], acc)
           | c :: l' =>
               '(c', acc1) ← buildTree aliases c acc;
               '(l'', acc2) ← go l' acc1;
               Ok (c' :: l'', acc2)
           end) cs t;
      Ok (Logical op cs', t')
  | Comparison op args =>
      let ident := Alias.resolve_alias aliases (identifier args) in
      tokens ← split_identifier ident;
      Ok (Comparison op (mkArgs ident (value args)), walk tokens t)
  | Unrecognized tag => Ok (Unrecognized tag, t)
  end.

(** The traversal of the constraints of a logical node, by name. *)
Definition buildTree_list (aliases : option AliasMap) :=
  fix go (l : list Node) (acc : RelationNode) : result JsError (list Node * RelationNode) :=
    match l with
    | [] => Ok ([], acc)
    | c :: l' =>
        '(c', acc1) ← buildTree aliases c acc;
        '(l'', acc2) ← go l' acc1;
        Ok (c' :: l'', acc2)
    end.

Lemma buildTree_logical aliases op cs t :
  buildTree aliases (Logical op cs) t =
    '(cs', t') ← buildTree_list aliases cs t; Ok (Logical op cs', t').
Proof. reflexivity. Qed.

Lemma buildTree_list_cons aliases c cs t :
  buildTree_list aliases (c :: cs) t =
    '(c', t1) ← buildTree aliases c t; '(cs', t2) ← buildTree_list aliases cs t1; Ok (c' :: cs', t2).
Proof. reflexivity. Qed.

(** ** What the builder computes *)

(** The relation path a comparison contributes: all tokens of its aliased
    identifier but the last. *)
Fixpoint relation_paths (aliases : option AliasMap) (node : Node) : list (list string) :=
  match node with
  | Logical _ cs => concat (map (relation_paths aliases) cs)
  | Comparison _ args =>
      match Alias.resolve_alias aliases (identifier args) with
      | JsString s => [relation_tokens (js_split "." s)]
      | _ => []
      end
  | Unrecognized _ => []
  end.

(** Every comparison's aliased identifier is a string, so [split] exists. *)
Fixpoint identifiers_splittable (aliases : option AliasMap) (node : Node) : bool :=
  match node with
  | Logical _ cs => forallb (identifiers_splittable aliases) cs
  | Comparison _ args => is_js_string (Alias.resolve_alias aliases (identifier args))
  | Unrecognized _ => true
  end.

(** The AST after the builder has overwritten the identifiers. *)
Fixpoint aliased_ast (aliases : option AliasMap) (node : Node) : Node :=
  match node with
  | Logical op cs => Logical op (map (aliased_ast aliases) cs)
  | Comparison op args =>
      Comparison op (mkArgs (Alias.resolve_alias aliases (identifier args)) (value args))
  | Unrecognized tag => Unrecognized tag
  end.

(** ** The builder's specification *)

(** The three outcomes of a comparison leaf. *)
Lemma buildTree_comparison aliases op args t :
  buildTree aliases (Comparison op args) t =
    match Alias.resolve_alias aliases (identifier args) with
    | JsString s =>
        Ok (Comparison op (mkArgs (JsString s) (value args)),
            insert_path (relation_tokens (js_split "." s)) t)
    | v => Err (match v with
                | JsUndefined => TypeError "Cannot read properties of undefined (reading 'split')"
                | _ => TypeError "node.args.identifier.split is not a function"
                end)
    end.
Proof.
  simpl. destruct (Alias.resolve_alias aliases (identifier args)); simpl; try done.
  by rewrite walk_eq_insert_path.
Qed.

Section builder_spec.
Context (aliases : option AliasMap).

Definition build_spec (n : Node) : Prop :=
  forall t n' t',
    buildTree aliases n t = Ok (n', t') <->
    identifiers_splittable aliases n = true /\ n' = aliased_ast aliases n /\
    t' = insert_paths (relation_paths aliases n) t.

Lemma buildTree_list_spec cs :
  Forall build_spec cs ->
  forall t cs' t',
    buildTree_list aliases cs t = Ok (cs', t') <->
    forallb (identifiers_splittable aliases) cs = true /\
    cs' = map (aliased_ast aliases) cs /\
    t' = insert_paths (concat (map (relation_paths aliases) cs)) t.
Proof.
  induction 1 as [|c cs Hc Hcs IH]; intros t cs' t'; simpl.
  - split; [by intros [= <- <-]|by intros (_ & -> & ->)].
  - destruct (buildTree aliases c t) as [[c' t1]|e] eqn:E; simpl.
    + apply Hc in E as (Hsc & -> & ->). rewrite Hsc, insert_paths_app; simpl.
      destruct (buildTree_list aliases cs _) as [[l t2]|e] eqn:E2; simpl.
      * apply IH in E2 as (-> & -> & ->). naive_solver.
      * split; [done|]. intros (Hs & -> & ->). exfalso.
        assert (buildTree_list aliases cs (insert_paths (relation_paths aliases c) t) =
                Ok (map (aliased_ast aliases) cs,
                    insert_paths (concat (map (relation_paths aliases) cs))
                      (insert_paths (relation_paths aliases c) t))) as E3
          by (apply IH; auto).
        congruence.
    + split; [done|]. intros (Hs & _). apply andb_true_iff in Hs as [Hs _].
      assert (buildTree aliases c t =
              Ok (aliased_ast aliases c, insert_paths (relation_paths aliases c) t)) as E3
        by (apply Hc; auto).
      congruence.
Qed.

Lemma buildTree_correct n : build_spec n.
Proof.
  induction n as [op cs IH|op args|tag] using Node_ind; intros t n' t'.
  - rewrite buildTree_logical. cbn [identifiers_splittable aliased_ast relation_paths].
    destruct (buildTree_list aliases cs t) as [[cs1 t1]|e] eqn:E; simpl.
    + apply buildTree_list_spec in E as (-> & -> & ->); [|done]. naive_solver.
    + split; [done|]. intros (Hs & _ & _).
      assert (buildTree_list aliases cs t =
              Ok (map (aliased_ast aliases) cs,
                  insert_paths (concat (map (relation_paths aliases) cs)) t)) as E3
        by (apply buildTree_list_spec; auto).
      congruence.
  - rewrite buildTree_comparison. cbn [identifiers_splittable aliased_ast relation_paths].
    destruct (Alias.resolve_alias aliases (identifier args)) as [s| | |]; simpl;
      [naive_solver|..]; split; (done || by intros []).
  - simpl. naive_solver.
Qed.

Lemma buildTree_Err n t e :
  buildTree aliases n t = Err e -> identifiers_splittable aliases n = false.
Proof.
  intros E. destruct (identifiers_splittable aliases n) eqn:Hs; [|done].
  assert (buildTree aliases n t =
          Ok (aliased_ast aliases n, insert_paths (relation_paths aliases n) t)) as E'
    by (apply buildTree_correct; auto).
  congruence.
Qed.
End builder_spec.

(** C1: The builder's functional specification: [buildTree] returns
    (instead of throwing) exactly when every comparison's aliased identifier
    is a string, and then it returns the AST with its identifiers
    overwritten by their aliases and the tree extended by the relation path
    (all segments but the last) of every comparison, in traversal order. *)
Theorem buildTree_spec aliases n t n' t' :
  buildTree aliases n t = Ok (n', t') <->
  identifiers_splittable aliases n = true /\ n' = aliased_ast aliases n /\
  t' = insert_paths (relation_paths aliases n) t.
Proof. apply buildTree_correct. Qed.

(** ** The join plan the builder produces *)

(** C9: The tree the builder returns contains a relation path [q] exactly
    when the starting tree did or [q] is a prefix of the relation path of
    some comparison of the AST (after aliasing). *)
Theorem buildTree_has_path aliases n t n' t' q :
  buildTree aliases n t = Ok (n', t') ->
  has_path q t' = has_path q t || existsb (is_prefix q) (relation_paths aliases n).
Proof.
  intros (_ & _ & ->)%buildTree_correct. apply has_path_insert_paths.
Qed.

(** C10: The builder preserves the sibling-uniqueness invariant. *)
Theorem buildTree_siblings_unique aliases n t n' t' :
  siblings_unique t = true -> buildTree aliases n t = Ok (n', t') ->
  siblings_unique t' = true.
Proof.
  intros Ht (_ & _ & ->)%buildTree_correct. eauto with relc.
Qed.

(** C11: Reordering the constraints of a logical node does not change the
    plan beyond the order of siblings: from a tree with distinct sibling
    names, the two trees have the same paths and are equal up to a
    permutation of the children at every level. *)
Theorem buildTree_permute_constraints aliases op cs1 cs2 t n1 t1 n2 t2 :
  siblings_unique t = true ->
  Permutation cs1 cs2 ->
  buildTree aliases (Logical op cs1) t = Ok (n1, t1) ->
  buildTree aliases (Logical op cs2) t = Ok (n2, t2) ->
  t1 ≡ t2 /\ tree_perm t1 t2.
Proof.
  intros Hu Hp (_ & _ & ->)%buildTree_correct (_ & _ & ->)%buildTree_correct.
  assert (insert_paths (relation_paths aliases (Logical op cs1)) t ≡
          insert_paths (relation_paths aliases (Logical op cs2)) t) as Heq.
  { intros q. rewrite !has_path_insert_paths. cbn [relation_paths].
    rewrite !existsb_concat_map. f_equal. by apply existsb_permutation. }
  split; [done|]. apply equiv_tree_perm; [eauto with relc..| |done].
  by rewrite !name_insert_paths.
Qed.

(** A dot-free identifier has no relation segment. *)
Lemma js_split_dot_free f : char_in "." f = false -> js_split "." f = [f].
Proof. intros Hf. rewrite <- (str_app_nil_r f) at 1. rewrite js_split_prefix by done. simpl. by rewrite str_app_nil_r. Qed.

(** [r.f] with dot-free [r] and [f] splits into the relation and the field. *)
Lemma js_split_field r f :
  char_in "." r = false -> char_in "." f = false -> js_split "." (r +++ "." +++ f) = [r; f].
Proof.
  intros Hr Hf. rewrite js_split_prefix by done. simpl. rewrite js_split_dot_free by done.
  simpl. by rewrite str_app_nil_r.
Qed.

Lemma relation_tokens_no_dot s :
  char_in "." s = false -> relation_tokens (js_split "." s) = [].
Proof.
  intros Hs. rewrite <- (str_app_nil_r s), js_split_prefix by done. done.
Qed.

Fixpoint identifiers_dot_free (aliases : option AliasMap) (node : Node) : bool :=
  match node with
  | Logical _ cs => forallb (identifiers_dot_free aliases) cs
  | Comparison _ args =>
      match Alias.resolve_alias aliases (identifier args) with
      | JsString s => negb (char_in "." s)
      | _ => false
      end
  | Unrecognized _ => true
  end.

Lemma relation_paths_dot_free aliases n :
  identifiers_dot_free aliases n = true -> Forall (fun p => p = []) (relation_paths aliases n).
Proof.
  induction n as [op cs IH|op args|tag] using Node_ind; simpl; intros H.
  - apply Forall_concat, Forall_map. rewrite forallb_forall in H.
    rewrite List.Forall_forall in IH |- *. intros c Hc. apply IH; [done|]. by apply H.
  - destruct (Alias.resolve_alias aliases (identifier args)) as [s| | |]; try done.
    constructor; [|done]. apply relation_tokens_no_dot. by apply negb_true_iff.
  - done.
Qed.

Lemma insert_paths_nil ps t : Forall (fun p => p = []) ps -> insert_paths ps t = t.
Proof. induction 1; [done|]. by subst. Qed.

Lemma dot_free_splittable aliases n :
  identifiers_dot_free aliases n = true -> identifiers_splittable aliases n = true.
Proof.
  induction n as [op cs IH|op args|tag] using Node_ind; simpl; intros H; try done.
  - rewrite forallb_forall in H |- *. rewrite List.Forall_forall in IH. auto.
  - by destruct (Alias.resolve_alias aliases (identifier args)).
Qed.

(** C12: An AST whose (aliased) identifiers are all fields of the root
    entity, without a dot, compiles without error and adds nothing to the
    tree: no join is needed. *)
Theorem buildTree_root_fields aliases n t :
  identifiers_dot_free aliases n = true ->
  buildTree aliases n t = Ok (aliased_ast aliases n, t).
Proof.
  intros H. apply buildTree_correct. split_and!; [by apply dot_free_splittable|done|].
  symmetry. by apply insert_paths_nil, relation_paths_dot_free.
Qed.

(** Where [split] succeeds, the identifier it read is a string: the AST the
    builder leaves behind has its declared type again. *)
Lemma aliased_ast_well_typed aliases n :
  identifiers_splittable aliases n = true -> node_well_typed (aliased_ast aliases n) = true.
Proof.
  induction n as [op cs IH|op args|tag] using Node_ind; simpl; intros H; try done.
  rewrite forallb_forall in H. apply forallb_forall. intros x (c & <- & Hc)%in_map_iff.
  rewrite List.Forall_forall in IH. by apply IH, H.
Qed.

(** The builder reads the identifiers in the order [comparisons] lists them. *)
Lemma identifiers_splittable_comparisons aliases n :
  identifiers_splittable aliases n =
    forallb (fun a => is_js_string (Alias.resolve_alias aliases (identifier a))) (comparisons n).
Proof.
  induction n as [op cs IH|op args|tag] using Node_ind; cbn [identifiers_splittable comparisons].
  - rewrite forallb_concat_map. induction IH as [|c cs Hc _ IHcs]; [done|].
    cbn [forallb]. by rewrite Hc, IHcs.
  - simpl. by rewrite andb_true_r.
  - done.
Qed.

Lemma node_well_typed_comparisons n :
  node_well_typed n = forallb (fun a => is_js_string (identifier a)) (comparisons n).
Proof.
  induction n as [op cs IH|op args|tag] using Node_ind; cbn [node_well_typed comparisons].
  - rewrite forallb_concat_map. induction IH as [|c cs Hc _ IHcs]; [done|].
    cbn [forallb]. by rewrite Hc, IHcs.
  - simpl. by rewrite andb_true_r.
  - done.
Qed.

Lemma comparisons_aliased_ast aliases n :
  comparisons (aliased_ast aliases n) =
    map (fun a => mkArgs (Alias.resolve_alias aliases (identifier a)) (value a)) (comparisons n).
Proof.
  induction n as [op cs IH|op args|tag] using Node_ind; cbn [aliased_ast comparisons]; [|done|done].
  rewrite concat_map, !map_map. f_equal. apply map_ext_in. intros c Hc.
  by apply (proj1 (List.Forall_forall _ _) IH).
Qed.

(** ** Witnesses *)

(** A sample predicate: [a.b.f = 1 AND (x = 2 OR a.c.g = 3)]. *)
Definition sample_ast : Node :=
  Logical "match_all"
    [Comparison "eq" (mkArgs (JsString "a.b.f") (SNumber 1));
     Logical "match_any"
       [Comparison "eq" (mkArgs (JsString "x") (SNumber 2));
        Comparison "eq" (mkArgs (JsString "a.c.g") (SNumber 3))]].

Definition sample_plan : RelationNode :=
  mkNode "" [mkNode "a" [mkNode "b" []; mkNode "c" []]].

Lemma buildTree_has_path_witness :
  buildTree None sample_ast empty_root = Ok (sample_ast, sample_plan) /\
  has_path ["a"; "c"] sample_plan =
    has_path ["a"; "c"] empty_root || existsb (is_prefix ["a"; "c"]) (relation_paths None sample_ast).
Proof.
  split; [reflexivity|].
  exact (buildTree_has_path None sample_ast empty_root sample_ast sample_plan ["a"; "c"]
           eq_refl).
Defined.

Lemma buildTree_siblings_unique_witness :
  siblings_unique empty_root = true /\
  buildTree None sample_ast empty_root = Ok (sample_ast, sample_plan) /\
  siblings_unique sample_plan = true.
Proof.
  split_and!; [reflexivity|reflexivity|].
  exact (buildTree_siblings_unique None sample_ast empty_root sample_ast sample_plan
           eq_refl eq_refl).
Defined.

Lemma buildTree_permute_constraints_witness :
  let cs1 := [Comparison "eq" (mkArgs (JsString "a.f") (SNumber 1));
              Comparison "eq" (mkArgs (JsString "b.f") (SNumber 2))] in
  let cs2 := [Comparison "eq" (mkArgs (JsString "b.f") (SNumber 2));
              Comparison "eq" (mkArgs (JsString "a.f") (SNumber 1))] in
  Permutation cs1 cs2 /\
  buildTree None (Logical "match_all" cs1) empty_root =
    Ok (Logical "match_all" cs1, mkNode "" [mkNode "a" []; mkNode "b" []]) /\
  buildTree None (Logical "match_all" cs2) empty_root =
    Ok (Logical "match_all" cs2, mkNode "" [mkNode "b" []; mkNode "a" []]) /\
  mkNode "" [mkNode "a" []; mkNode "b" []] ≡ mkNode "" [mkNode "b" []; mkNode "a" []] /\
  tree_perm (mkNode "" [mkNode "a" []; mkNode "b" []]) (mkNode "" [mkNode "b" []; mkNode "a" []]).
Proof.
  intros cs1 cs2.
  assert (Permutation cs1 cs2) as Hp by apply perm_swap.
  do 3 (split; [first [exact Hp|reflexivity]|]).
  exact (buildTree_permute_constraints None "match_all" cs1 cs2 empty_root _ _ _ _
           eq_refl Hp eq_refl eq_refl).
Defined.

Lemma buildTree_root_fields_witness :
  let n := Logical "match_all" [Comparison "eq" (mkArgs (JsString "first_name") (SNumber 1))] in
  identifiers_dot_free None n = true /\
  buildTree None n empty_root = Ok (aliased_ast None n, empty_root).
Proof.
  intros n. split; [reflexivity|]. apply (buildTree_root_fields None n empty_root). reflexivity.
Defined.
