(* ===== verification/Machine.v ===== *)
(** * The traversal as a machine (relation.ts, [buildTree], lines 20-45)

    [Builder.buildTree] is the traversal as a function that returns the
    rewritten AST.  The code does something else: it mutates the caller's
    AST in place ([node.args.identifier = aliases[identifier]], line 28)
    and the shared tree through the reference [top] (lines 31-42), one
    statement after the other, and a throw from [split] (line 30) leaves
    every mutation made so far in place.  This file runs the same code as a
    small-step machine over an explicit store: the caller's AST with
    addresses into it, the tree, and a stack of frames for the pending
    calls of [constraints.map] and the iterations of the [for] loop.

    The machine refines [buildTree] (same result with the fuel [node_work]),
    always halts, keeps distinct sibling names in every reachable state,
    and, when it throws, leaves the AST as [alias_until] describes: the
    comparisons before the throwing one aliased, the throwing one holding
    the non-string value, the later ones untouched. *)

From S2P Require Import Prelude Ast Alias RelationTree TreeCanon Builder.
From Stdlib Require Import ZArith.

Module Machine.

(** ** The caller's AST as a store *)

(** The node at address [a] (a path of constraint indices). *)
Fixpoint ast_at (n : Node) (a : list nat) : option Node :=
  match a with
  | [] => Some n
  | i :: a' =>
      match n with
      | Logical _ cs => cs !! i ≫= fun c => ast_at c a'
      | _ => None
      end
  end.

(** Update in place of the node at address [a]. *)
Fixpoint ast_update (f : Node -> Node) (a : list nat) (n : Node) : Node :=
  match a with
  | [] => f n
  | i :: a' =>
      match n with
      | Logical op cs => Logical op (alter (ast_update f a') i cs)
      | _ => n
      end
  end.

(** Line 28: [node.args.identifier = ...] on a comparison node. *)
Definition set_identifier (v : JsValue) (n : Node) : Node :=
  match n with
  | Comparison op args => Comparison op (mkArgs v (value args))
  | _ => n
  end.

(** ** Frames and configurations *)

(** A pending call [this.buildTree(node)] on the node at an address, or the
    [for] loop at index [i] with its tokens and its reference [top]. *)
Inductive Frame : Type :=
| FVisit (a : list nat)
| FLoop (tokens : list string) (i : nat) (top : list nat).

Record Machine : Type := mkMachine {
  m_ast : Node;
  m_tree : RelationNode;
  m_frames : list Frame
}.

(** A running machine, or a thrown exception with the AST as it was left. *)
Inductive Conf : Type :=
| Running (m : Machine)
| Thrown (e : JsError) (ast : Node).

(** One statement of [buildTree]. *)
Definition exec_frame (aliases : option AliasMap) (fr : Frame) (ast : Node)
    (t : RelationNode) (fs : list Frame) : Conf :=
  match fr with
  | FVisit a =>
      match ast_at ast a with
      | Some (Logical _ cs) =>
          (* lines 21-22: one call per constraint, in order *)
          Running (mkMachine ast t (map (fun i => FVisit (a ++ [i])) (seq 0 (length cs)) ++ fs))
      | Some (Comparison _ args) =>
          (* lines 24-30: alias rewrite, then split *)
          let ident := Alias.resolve_alias aliases (identifier args) in
          let ast' := ast_update (set_identifier ident) a ast in
          match split_identifier ident with
          | Ok tokens => Running (mkMachine ast' t (FLoop tokens 0 [] :: fs))
          | Err e => Thrown e ast'
          end
      | _ => Running (mkMachine ast t fs)
      end
  | FLoop tokens i top =>
      (* line 32: [i < tokens.length - 1]; lines 33-42: the body *)
      if decide (i < length tokens - 1) then
        match tokens !! i with
        | Some tok =>
            let st := walk_step (mkWalk t top) tok in
            Running (mkMachine ast (tree st) (FLoop tokens (S i) (RelationTree.top st) :: fs))
        | None => Running (mkMachine ast t fs)
        end
      else Running (mkMachine ast t fs)
  end.

(** The step function: [None] on a final configuration. *)
Definition step (aliases : option AliasMap) (c : Conf) : option Conf :=
  match c with
  | Running (mkMachine ast t (fr :: fs)) => Some (exec_frame aliases fr ast t fs)
  | _ => None
  end.

(** The machine run for at most [fuel] steps. *)
Fixpoint run (aliases : option AliasMap) (fuel : nat) (c : Conf) : Conf :=
  match fuel with
  | 0 => c
  | S k => match step aliases c with Some c' => run aliases k c' | None => c end
  end.

(** [new Relation(ast, aliases)]'s call [this.buildTree(ast, aliases)] on
    the tree [t]. *)
Definition init (ast : Node) (t : RelationNode) : Conf :=
  Running (mkMachine ast t [FVisit []]).

(** Configurations reachable from [c0] by steps. *)
Inductive reachable (aliases : option AliasMap) (c0 : Conf) : Conf -> Prop :=
| reach_init : reachable aliases c0 c0
| reach_step c c' : reachable aliases c0 c -> step aliases c = Some c' -> reachable aliases c0 c'.

(** ** The number of steps, and the AST left by a throw *)

(** Steps of one call: one to dispatch, plus for a comparison whose
    identifier splits, one per iteration of the loop and one to leave it. *)
Fixpoint node_work (aliases : option AliasMap) (n : Node) : nat :=
  match n with
  | Logical _ cs => S (list_sum (map (node_work aliases) cs))
  | Comparison _ args =>
      match split_identifier (Alias.resolve_alias aliases (identifier args)) with
      | Ok tokens => S (S (length tokens - 1))
      | Err _ => 1
      end
  | Unrecognized _ => 1
  end.

(** The constraints of a logical node after a throw inside them: the ones
    before the throwing constraint are aliased, the throwing one is [f] of
    it, the ones after are untouched. *)
Definition alias_until_list (aliases : option AliasMap) (f : Node -> Node) :=
  fix go (cs : list Node) : list Node :=
    match cs with
    | [] => []
    | c :: cs' =>
        if identifiers_splittable aliases c then aliased_ast aliases c :: go cs'
        else f c :: cs'
    end.

(** The AST as a throw leaves it. *)
Fixpoint alias_until (aliases : option AliasMap) (n : Node) : Node :=
  match n with
  | Logical op cs => Logical op (alias_until_list aliases (alias_until aliases) cs)
  | Comparison op args =>
      Comparison op (mkArgs (Alias.resolve_alias aliases (identifier args)) (value args))
  | Unrecognized tag => Unrecognized tag
  end.

(** ** The store *)

Lemma ast_at_app n a b : ast_at n (a ++ b) = ast_at n a ≫= fun m => ast_at m b.
Proof.
  revert n. induction a as [|i a IH]; intros n; [done|].
  destruct n as [op cs| |]; simpl; [|done..]. destruct (cs !! i); simpl; [apply IH|done].
Qed.

Lemma ast_update_app f n a b : ast_update f (a ++ b) n = ast_update (ast_update f b) a n.
Proof.
  revert n. induction a as [|i a IH]; intros n; [done|].
  destruct n as [op cs| |]; simpl; [|done..]. f_equal. apply list_alter_ext; auto.
Qed.

Lemma ast_update_ext f g a n m :
  ast_at n a = Some m -> f m = g m -> ast_update f a n = ast_update g a n.
Proof.
  revert n. induction a as [|i a IH]; intros n Hm Hfg; simpl in *; [congruence|].
  destruct n as [op cs| |]; [|done..]. f_equal. apply list_alter_ext; [|done].
  intros x Hx. rewrite Hx in Hm. by apply IH.
Qed.

Lemma ast_update_id a n : ast_update id a n = n.
Proof.
  revert n. induction a as [|i a IH]; intros n; [done|].
  destruct n as [op cs| |]; simpl; [|done..]. f_equal. by apply list_alter_id.
Qed.

Lemma ast_update_self a n m : ast_at n a = Some m -> ast_update (fun _ => m) a n = n.
Proof. intros Hm. rewrite (ast_update_ext _ id a n m Hm); [apply ast_update_id|done]. Qed.

Lemma ast_update_compose f g a n :
  ast_update f a (ast_update g a n) = ast_update (f ∘ g) a n.
Proof.
  revert n. induction a as [|i a IH]; intros n; [done|].
  destruct n as [op cs| |]; simpl; [|done..]. f_equal. rewrite list_alter_alter_eq.
  apply list_alter_ext; [intros x _; apply IH|done].
Qed.

Lemma ast_at_update f a n m : ast_at n a = Some m -> ast_at (ast_update f a n) a = Some (f m).
Proof.
  revert n. induction a as [|i a IH]; intros n Hm; simpl in *; [congruence|].
  destruct n as [op cs| |]; [|done..]. rewrite list_lookup_alter_eq.
  destruct (cs !! i); simpl in *; [by apply IH|done].
Qed.

(** An update of a constraint is an update of its logical node. *)
Lemma ast_update_child f a n op l i :
  ast_at n a = Some (Logical op l) ->
  ast_update f (a ++ [i]) n = ast_update (fun _ => Logical op (alter f i l)) a n.
Proof. intros Hl. rewrite ast_update_app. by apply (ast_update_ext _ _ _ _ _ Hl). Qed.

(** ** Runs *)

Section runs.
Context (aliases : option AliasMap).

Lemma run_final k c : step aliases c = None -> run aliases k c = c.
Proof. intros H. destruct k; simpl; [done|]. by rewrite H. Qed.

Lemma run_S k c :
  run aliases (S k) c = match step aliases c with Some c' => run aliases k c' | None => c end.
Proof. done. Qed.

Lemma run_Thrown k e ast : run aliases k (Thrown e ast) = Thrown e ast.
Proof. by apply run_final. Qed.

Lemma run_add k1 k2 c : run aliases (k1 + k2) c = run aliases k2 (run aliases k1 c).
Proof.
  revert c. induction k1 as [|k1 IH]; intros c; [done|]. simpl.
  destruct (step aliases c) eqn:E; [apply IH|by rewrite run_final].
Qed.

(** Lines 31-43: the loop from index [i] runs the remaining iterations and
    leaves, in [k + 1] steps. *)
Lemma run_loop tokens k i top ast t fs :
  i + k = length tokens - 1 ->
  run aliases (S k) (Running (mkMachine ast t (FLoop tokens i top :: fs))) =
  Running (mkMachine ast (tree (fold_left walk_step (drop i (relation_tokens tokens)) (mkWalk t top))) fs).
Proof.
  revert i top t. induction k as [|k IH]; intros i top t Hk; rewrite run_S; cbn [step exec_frame].
  - rewrite decide_False by lia. rewrite drop_ge; [done|].
    unfold relation_tokens. rewrite length_take. lia.
  - rewrite decide_True by lia.
    destruct (lookup_lt_is_Some_2 tokens i) as [tok Htok]; [lia|]. rewrite Htok.
    rewrite (drop_S _ tok); [|unfold relation_tokens; rewrite lookup_take, decide_True by lia; done].
    cbn [fold_left]. destruct (walk_step (mkWalk t top) tok) as [t' top'] eqn:Hst.
    cbn [tree RelationTree.top]. by rewrite IH by lia.
Qed.

(** What one call does, from any address of the AST. *)
Definition visit_spec (n : Node) : Prop :=
  forall ast a t fs, ast_at ast a = Some n ->
  run aliases (node_work aliases n) (Running (mkMachine ast t (FVisit a :: fs))) =
  match buildTree aliases n t with
  | Ok (n', t') => Running (mkMachine (ast_update (fun _ => n') a ast) t' fs)
  | Err e => Thrown e (ast_update (fun _ => alias_until aliases n) a ast)
  end.

Lemma run_comparison op args : visit_spec (Comparison op args).
Proof.
  intros ast a t fs Ha. cbn [node_work buildTree].
  set (ident := Alias.resolve_alias aliases (identifier args)).
  assert (ast_update (set_identifier ident) a ast =
          ast_update (fun _ => Comparison op (mkArgs ident (value args))) a ast) as Hset
    by (by apply (ast_update_ext _ _ _ _ _ Ha)).
  destruct (split_identifier ident) as [tokens|e] eqn:E; cbn [mbind result_bind].
  - rewrite run_S. cbn [step exec_frame]. rewrite Ha. fold ident. rewrite E, Hset.
    by rewrite run_loop by lia.
  - rewrite run_S. cbn [step exec_frame]. rewrite Ha. fold ident. rewrite E, Hset. done.
Qed.


Lemma run_unrecognized tag : visit_spec (Unrecognized tag).
Proof.
  intros ast a t fs Ha. cbn [node_work buildTree]. rewrite run_S. cbn [step exec_frame].
  rewrite Ha. simpl. by rewrite ast_update_self.
Qed.

Lemma ast_update_const_compose m g a n :
  ast_update (fun _ => m) a (ast_update g a n) = ast_update (fun _ => m) a n.
Proof. by rewrite ast_update_compose. Qed.

Lemma alter_const_middle {A} (pre l : list A) (x y : A) :
  alter (fun _ => y) (length pre) (pre ++ x :: l) = pre ++ y :: l.
Proof. by rewrite alter_app_r_alt, Nat.sub_diag by lia. Qed.

(** The calls of [constraints.map], from the constraint after [pre] on. *)
Lemma run_children op cs :
  Forall visit_spec cs ->
  forall pre ast a t fs, ast_at ast a = Some (Logical op (pre ++ cs)) ->
  run aliases (list_sum (map (node_work aliases) cs))
    (Running (mkMachine ast t (map (fun i => FVisit (a ++ [i])) (seq (length pre) (length cs)) ++ fs))) =
  match buildTree_list aliases cs t with
  | Ok (cs', t') => Running (mkMachine (ast_update (fun _ => Logical op (pre ++ cs')) a ast) t' fs)
  | Err e =>
      Thrown e (ast_update (fun _ => Logical op (pre ++ alias_until_list aliases (alias_until aliases) cs)) a ast)
  end.
Proof.
  induction 1 as [|c cs Hc _ IH]; intros pre ast a t fs Ha.
  - simpl. rewrite app_nil_r in *. by rewrite ast_update_self.
  - assert (ast_at ast (a ++ [length pre]) = Some c) as Hac
      by (rewrite ast_at_app, Ha; simpl; by rewrite lookup_app_r, Nat.sub_diag by lia).
    cbn [map seq length app]. rewrite list_sum_cons, run_add, (Hc _ _ _ _ Hac).
    rewrite buildTree_list_cons.
    destruct (buildTree aliases c t) as [[c' t1]|e] eqn:Ec;
      rewrite (ast_update_child _ _ _ _ _ _ Ha), alter_const_middle; simpl;
      [|by rewrite run_Thrown, (buildTree_Err _ _ _ _ Ec)].
    apply buildTree_correct in Ec as (Hs & -> & _). rewrite Hs.
    replace (S (length pre)) with (length (pre ++ [aliased_ast aliases c])) by (rewrite length_app; simpl; lia).
    rewrite (IH (pre ++ [aliased_ast aliases c])); [|rewrite (ast_at_update _ _ _ _ Ha); by rewrite <- app_assoc].
    destruct (buildTree_list aliases cs t1) as [[cs' t2]|e]; simpl;
      by rewrite ast_update_const_compose, <- app_assoc.
Qed.

Lemma run_visit n : visit_spec n.
Proof.
  induction n as [op cs IH|op args|tag] using Node_ind; [|apply run_comparison|apply run_unrecognized].
  intros ast a t fs Ha. cbn [node_work]. rewrite run_S. cbn [step exec_frame]. rewrite Ha.
  rewrite buildTree_logical. cbn [alias_until].
  pose proof (run_children op cs IH [] ast a t fs Ha) as Hcs. cbn [length app] in Hcs.
  rewrite Hcs. simpl.
  by destruct (buildTree_list aliases cs t) as [[cs' t']|e].
Qed.

(** The outcome [buildTree] predicts for the machine from [init]. *)
Definition outcome (ast : Node) (t : RelationNode) : Conf :=
  match buildTree aliases ast t with
  | Ok (ast', t') => Running (mkMachine ast' t' [])
  | Err e => Thrown e (alias_until aliases ast)
  end.

Lemma run_init ast t : run aliases (node_work aliases ast) (init ast t) = outcome ast t.
Proof.
  unfold init, outcome. rewrite (run_visit ast ast [] t [] eq_refl).
  by destruct (buildTree aliases ast t) as [[ast' t']|e].
Qed.

Lemma outcome_final ast t : step aliases (outcome ast t) = None.
Proof. unfold outcome. by destruct (buildTree aliases ast t) as [[ast' t']|e]. Qed.

Lemma run_snoc k c0 c c' :
  run aliases k c0 = c -> step aliases c = Some c' -> run aliases (S k) c0 = c'.
Proof. intros Hk Hs. by rewrite <- Nat.add_1_r, run_add, Hk, run_S, Hs. Qed.

(** The machine is deterministic: a reachable configuration lies on the run. *)
Lemma reachable_run c0 c : reachable aliases c0 c -> exists k, run aliases k c0 = c.
Proof.
  induction 1 as [|c c' _ [k Hk] Hs]; [by exists 0|]. exists (S k). by apply (run_snoc k c0 c).
Qed.

(** Two runs that both end in a final configuration end in the same one. *)
Lemma run_final_unique k1 k2 c0 :
  step aliases (run aliases k1 c0) = None -> step aliases (run aliases k2 c0) = None ->
  run aliases k1 c0 = run aliases k2 c0.
Proof.
  intros H1 H2. destruct (Nat.le_ge_cases k1 k2) as [Hle|Hle].
  - replace k2 with (k1 + (k2 - k1)) by lia. by rewrite run_add, (run_final _ _ H1).
  - replace k1 with (k2 + (k1 - k2)) by lia. by rewrite run_add, (run_final _ _ H2).
Qed.

Lemma reachable_outcome ast t c :
  reachable aliases (init ast t) c -> exists k, run aliases k c = outcome ast t.
Proof.
  intros [k <-]%reachable_run. destruct (Nat.le_ge_cases k (node_work aliases ast)) as [Hle|Hle].
  - exists (node_work aliases ast - k). by rewrite <- run_add, Nat.add_comm, Nat.sub_add, run_init.
  - exists 0. cbn [run]. rewrite <- run_init.
    apply run_final_unique; [|rewrite run_init; apply outcome_final].
    replace k with (node_work aliases ast + (k - node_work aliases ast)) by lia.
    rewrite run_add, run_init, (run_final _ _ (outcome_final ast t)). apply outcome_final.
Qed.

Lemma run_reachable k c0 c : reachable aliases c0 c -> reachable aliases c0 (run aliases k c).
Proof.
  revert c. induction k as [|k IH]; intros c Hc; [done|]. rewrite run_S.
  destruct (step aliases c) as [c'|] eqn:E; [|done]. apply IH. by apply (reach_step _ _ c).
Qed.

Lemma reachable_Thrown ast t e ast' :
  reachable aliases (init ast t) (Thrown e ast') ->
  identifiers_splittable aliases ast = false /\ ast' = alias_until aliases ast.
Proof.
  intros [k Hk]%reachable_outcome. rewrite run_Thrown in Hk. unfold outcome in Hk.
  destruct (buildTree aliases ast t) as [[? ?]|e'] eqn:E; [done|].
  injection Hk as <- <-. split; [by apply (buildTree_Err _ _ t e)|done].
Qed.

(** One comparison's arguments after line 28. *)
Definition alias_args (a : ComparisonArgs) : ComparisonArgs :=
  mkArgs (Alias.resolve_alias aliases (identifier a)) (value a).

Definition splits (a : ComparisonArgs) : Prop :=
  is_js_string (Alias.resolve_alias aliases (identifier a)) = true.

(** The comparisons of the AST a throw leaves: those before the first
    comparison that does not split are aliased, it holds its aliased value,
    the later ones are untouched. *)
Definition throw_split (cs cs' : list ComparisonArgs) : Prop :=
  exists pre x post, cs = pre ++ x :: post /\ Forall splits pre /\ ~ splits x /\
    cs' = map alias_args pre ++ alias_args x :: post.

Lemma throw_split_app_l pre cs cs' :
  Forall splits pre -> throw_split cs cs' -> throw_split (pre ++ cs) (map alias_args pre ++ cs').
Proof.
  intros Hpre (p & x & post & -> & Hp & Hx & ->). exists (pre ++ p), x, post.
  rewrite !map_app, <- !app_assoc. split_and!; [done|by apply Forall_app|done|done].
Qed.

Lemma throw_split_app_r cs cs' rest :
  throw_split cs cs' -> throw_split (cs ++ rest) (cs' ++ rest).
Proof.
  intros (p & x & post & -> & Hp & Hx & ->). exists p, x, (post ++ rest).
  by rewrite <- !app_assoc.
Qed.

Lemma splittable_splits n :
  identifiers_splittable aliases n = true -> Forall splits (comparisons n).
Proof.
  rewrite identifiers_splittable_comparisons, forallb_forall. intros H.
  apply List.Forall_forall. intros a Ha. by apply H.
Qed.

Lemma alias_until_comparisons n :
  identifiers_splittable aliases n = false ->
  throw_split (comparisons n) (comparisons (alias_until aliases n)).
Proof.
  induction n as [op cs IH|op args|tag] using Node_ind; cbn [identifiers_splittable]; [|intros Hs|done].
  - cbn [alias_until comparisons]. induction IH as [|c cs Hc _ IHcs]; cbn [forallb]; [done|].
    cbn [alias_until_list map concat].
    destruct (identifiers_splittable aliases c) eqn:Ec; cbn [andb]; intros Hs.
    + cbn [map concat]. rewrite comparisons_aliased_ast. apply throw_split_app_l; [by apply splittable_splits|auto].
    + cbn [map concat]. by apply throw_split_app_r, Hc.
  - exists [], args, []. split_and!; [done|done|unfold splits; by rewrite Hs|done].
Qed.

(** Distinct sibling names in the tree of a configuration. *)
Definition conf_siblings_unique (c : Conf) : bool :=
  match c with
  | Running m => siblings_unique (m_tree m)
  | Thrown _ _ => true
  end.

Lemma step_siblings_unique c c' :
  step aliases c = Some c' -> conf_siblings_unique c = true -> conf_siblings_unique c' = true.
Proof.
  destruct c as [[ast t [|fr fs]]|e ast]; intros [= <-]; cbn [conf_siblings_unique m_tree].
  intros Ht. destruct fr as [a|tokens i top]; unfold exec_frame.
  - destruct (ast_at ast a) as [[op cs|op args|tag]|]; try done.
    by destruct (split_identifier _).
  - case_decide; [|done]. destruct (tokens !! i); [|done].
    eauto with relc.
Qed.

End runs.

(** ** The machine's properties *)

(** C31: Refinement of the traversal: the machine that runs [buildTree]
    statement by statement over the shared AST and tree, from the call on
    the root, reaches in [node_work] steps the result of the functional
    model: the rewritten AST and the extended tree with no pending frame when
    [buildTree] returns, and the exception with the AST as [alias_until]
    describes it when [buildTree] throws. *)
Theorem machine_refines_buildTree aliases ast t :
  run aliases (node_work aliases ast) (init ast t) =
  match buildTree aliases ast t with
  | Ok (ast', t') => Running (mkMachine ast' t' [])
  | Err e => Thrown e (alias_until aliases ast)
  end.
Proof. apply run_init. Qed.

(** C32: Termination of the traversal: with any fuel of at least
    [node_work] steps (one per call, one per iteration of the [for] loop and
    one per exit from it), the machine has reached a final configuration,
    the same whatever the fuel. *)
Theorem machine_halts aliases ast t fuel :
  node_work aliases ast <= fuel ->
  run aliases fuel (init ast t) = outcome aliases ast t /\
  step aliases (outcome aliases ast t) = None.
Proof.
  intros Hf. split; [|apply outcome_final].
  replace fuel with (node_work aliases ast + (fuel - node_work aliases ast)) by lia.
  by rewrite run_add, run_init, (run_final _ _ _ (outcome_final aliases ast t)).
Qed.

(** C33: Liveness: from every configuration reachable from the call on the
    root, the machine reaches the final configuration that [buildTree]
    predicts; no reachable state is stuck or loops. *)
Theorem machine_reachable_completes aliases ast t c :
  reachable aliases (init ast t) c -> exists k, run aliases k c = outcome aliases ast t.
Proof. apply reachable_outcome. Qed.

(** C34: Invariant of every reachable state: if the tree the call starts
    from has distinct sibling names, so does the tree of every configuration
    the machine reaches, in the middle of a [for] loop included. *)
Theorem machine_siblings_unique aliases ast t c :
  reachable aliases (init ast t) c -> siblings_unique t = true ->
  conf_siblings_unique c = true.
Proof.
  intros Hr Ht. induction Hr as [|c c' _ IH Hs]; [done|].
  by apply (step_siblings_unique aliases c c').
Qed.

(** C35: Safety of the throw: the machine throws only when some comparison's
    aliased identifier is not a string, and the caller's AST it leaves is
    [alias_until]: the comparisons before the throwing one aliased, the
    throwing one holding its non-string value, the later ones untouched. *)
Theorem machine_throw_state aliases ast t e ast' :
  reachable aliases (init ast t) (Thrown e ast') ->
  identifiers_splittable aliases ast = false /\ ast' = alias_until aliases ast.
Proof. apply reachable_Thrown. Qed.

(** C36: A throw in the middle of a compile leaves the caller's AST half
    rewritten: when the machine throws, the comparisons of the AST, in
    traversal order, split into those before the throwing one, whose aliased
    identifiers are strings and which now hold them, the throwing one, whose
    aliased identifier is not a string and which now holds that value, and
    the later ones, left untouched, unaliased. *)
Theorem machine_throw_comparisons aliases ast t e ast' :
  reachable aliases (init ast t) (Thrown e ast') ->
  throw_split aliases (comparisons ast) (comparisons ast').
Proof.
  intros [Hs ->]%reachable_Thrown. by apply alias_until_comparisons.
Qed.

(** ** Witnesses *)

Definition machine_sample_ast : Node :=
  Logical "match_all" [Comparison "eq" (mkArgs (JsString "a.b.f") (SNumber 1))].

(** The aliases of the repository's aliasing test, and a conjunction that
    throws at its second comparison. *)
Definition throwing_aliases : AliasMap :=
  mkAliases (<["salary" := "salaries.salary"]> (<["salary_start_date" := "salaries.from_date"]> ∅)).

Definition throwing_ast : Node :=
  Logical "match_all"
    [Comparison "geq" (mkArgs (JsString "salary") (SNumber 60000));
     Comparison "eq" (mkArgs (JsString "toString") (SNumber 1));
     Comparison "geq" (mkArgs (JsString "salary_start_date") (SString "1986-06-26"))].

Definition thrown_ast : Node :=
  Logical "match_all"
    [Comparison "geq" (mkArgs (JsString "salaries.salary") (SNumber 60000));
     Comparison "eq" (mkArgs (JsFunction "toString") (SNumber 1));
     Comparison "geq" (mkArgs (JsString "salary_start_date") (SString "1986-06-26"))].

Lemma machine_halts_witness :
  node_work None machine_sample_ast <= 10 /\
  run None 10 (init machine_sample_ast empty_root) = outcome None machine_sample_ast empty_root.
Proof.
  assert (node_work None machine_sample_ast <= 10) as H by (vm_compute; lia).
  split; [exact H|exact (proj1 (machine_halts None machine_sample_ast empty_root 10 H))].
Defined.

Lemma sample_reachable :
  reachable None (init machine_sample_ast empty_root)
    (exec_frame None (FVisit []) machine_sample_ast empty_root []).
Proof. apply (reach_step _ _ (init machine_sample_ast empty_root)); [apply reach_init|reflexivity]. Qed.

Lemma machine_reachable_completes_witness :
  reachable None (init machine_sample_ast empty_root) (exec_frame None (FVisit []) machine_sample_ast empty_root []) /\
  exists k, run None k (exec_frame None (FVisit []) machine_sample_ast empty_root []) =
            outcome None machine_sample_ast empty_root.
Proof.
  split; [exact sample_reachable|].
  exact (machine_reachable_completes None machine_sample_ast empty_root _ sample_reachable).
Defined.

Lemma machine_siblings_unique_witness :
  reachable None (init machine_sample_ast empty_root) (exec_frame None (FVisit []) machine_sample_ast empty_root []) /\
  siblings_unique empty_root = true /\
  conf_siblings_unique (exec_frame None (FVisit []) machine_sample_ast empty_root []) = true.
Proof.
  split_and!; [exact sample_reachable|reflexivity|].
  exact (machine_siblings_unique None machine_sample_ast empty_root _ sample_reachable eq_refl).
Defined.

Lemma machine_throw_state_witness :
  let ast := Comparison "eq" (mkArgs (JsString "toString") (SNumber 1)) in
  let ast' := Comparison "eq" (mkArgs (JsFunction "toString") (SNumber 1)) in
  reachable (Some (mkAliases ∅)) (init ast empty_root)
    (Thrown (TypeError "node.args.identifier.split is not a function") ast') /\
  identifiers_splittable (Some (mkAliases ∅)) ast = false /\ ast' = alias_until (Some (mkAliases ∅)) ast.
Proof.
  intros ast ast'.
  assert (reachable (Some (mkAliases ∅)) (init ast empty_root)
            (Thrown (TypeError "node.args.identifier.split is not a function") ast')) as Hr.
  { apply (reach_step _ _ (init ast empty_root)); [apply reach_init|vm_compute; reflexivity]. }
  split; [exact Hr|exact (machine_throw_state _ _ _ _ _ Hr)].
Defined.

Lemma machine_throw_comparisons_witness :
  reachable (Some throwing_aliases) (init throwing_ast empty_root)
    (Thrown (TypeError "node.args.identifier.split is not a function") thrown_ast) /\
  throw_split (Some throwing_aliases) (comparisons throwing_ast) (comparisons thrown_ast).
Proof.
  assert (reachable (Some throwing_aliases) (init throwing_ast empty_root)
            (Thrown (TypeError "node.args.identifier.split is not a function") thrown_ast)) as Hr.
  { assert (run (Some throwing_aliases) 20 (init throwing_ast empty_root) =
              Thrown (TypeError "node.args.identifier.split is not a function") thrown_ast) as Hrun
      by (vm_compute; reflexivity).
    rewrite <- Hrun. apply run_reachable, reach_init. }
  split; [exact Hr|exact (machine_throw_comparisons _ _ _ _ _ Hr)].
Defined.

End Machine.
