(* ===== verification/Heap.v ===== *)
(** * The AST as a graph of JS objects (relation.ts, [buildTree], lines 20-45)

    The caller hands [new Relation(ast, aliases)] a JS object whose
    [constraints] array holds references to other node objects.  Nothing in
    the code or in the type [Node] prevents two entries from referring to the
    same object, or a node from containing itself.  This file models the AST
    as a heap of node objects ([gmap loc HNode]) and [buildTree] as the
    recursion over references it is, with line 28 writing into the one
    object every reference reads.

    - On a tree-shaped heap (every object reached once) the heap builder
      refines [Builder.buildTree] on the AST the heap encodes: same tree,
      same exception, the heap encoding the rewritten AST (or the AST a
      throw leaves), and no object outside the AST touched.
    - A comparison object referenced twice is aliased twice in one compile.
    - A logical object that contains itself makes the recursion unbounded:
      no call depth is enough (JS ends it with a stack overflow). *)

From S2P Require Import Prelude Ast Alias RelationTree Builder Machine.
From Stdlib Require Import ZArith.

Module Heap.

(** References to node objects. *)
Abbreviation loc := nat.

(** A node object: its [type] and fields, with [constraints] an array of
    references. *)
Inductive HNode : Type :=
| HLogical (operator : string) (constraints : list loc)
| HComparison (operator : string) (args : ComparisonArgs)
| HUnrecognized (type_tag : string).

Abbreviation heap := (gmap loc HNode).

(** What a call returns: the heap and the tree, or the exception with the
    heap as the throw leaves it; [None] when the call depth allowed is
    exhausted before the call returns. *)
Abbreviation hresult := (option (result (JsError * heap) (heap * RelationNode))).

(** Lines 21-22: [constraints.map] over references, in order, each call on
    the heap the previous one left, stopping at the first throw. *)
Definition hbuild_list (rec : heap -> loc -> RelationNode -> hresult) :=
  fix go (ls : list loc) (h : heap) (t : RelationNode) : hresult :=
    match ls with
    | [] => Some (Ok (h, t))
    | l :: ls' =>
        match rec h l t with
        | Some (Ok (h1, t1)) => go ls' h1 t1
        | r => r
        end
    end.

(** Lines 20-45 on the object at [l], with at most [depth] nested calls. *)
Fixpoint hbuild (depth : nat) (aliases : option AliasMap) (h : heap) (l : loc)
    (t : RelationNode) : hresult :=
  match depth with
  | 0 => None
  | S depth' =>
      match h !! l with
      | Some (HLogical _ ls) => hbuild_list (hbuild depth' aliases) ls h t
      | Some (HComparison op args) =>
          let ident := Alias.resolve_alias aliases (identifier args) in
          let h' := <[l := HComparison op (mkArgs ident (value args))]> h in
          match split_identifier ident with
          | Ok tokens => Some (Ok (h', walk tokens t))
          | Err e => Some (Err (e, h'))
          end
      | Some (HUnrecognized _) => Some (Ok (h, t))
      | None => Some (Err (TypeError "Cannot read properties of undefined (reading 'type')", h))
      end
  end.

(** ** The AST a heap encodes *)

(** The AST reached from [l], when its depth is below [fuel]. *)
Fixpoint decode (fuel : nat) (h : heap) (l : loc) : option Node :=
  match fuel with
  | 0 => None
  | S f =>
      match h !! l with
      | Some (HLogical op ls) => Logical op <$> mapM (decode f h) ls
      | Some (HComparison op args) => Some (Comparison op args)
      | Some (HUnrecognized tag) => Some (Unrecognized tag)
      | None => None
      end
  end.

(** The references visited from [l], in traversal order. *)
Fixpoint node_locs (fuel : nat) (h : heap) (l : loc) : list loc :=
  match fuel with
  | 0 => []
  | S f =>
      l :: match h !! l with
           | Some (HLogical _ ls) => concat (map (node_locs f h) ls)
           | _ => []
           end
  end.

(** [h'] agrees with [h] outside the references [L]. *)
Definition frame (L : list loc) (h h' : heap) : Prop :=
  forall x, ~ In x L -> h' !! x = h !! x.

(** ** Heaps that agree on the objects of an AST *)

Lemma frame_app L1 L2 h h1 h2 : frame L1 h h1 -> frame L2 h1 h2 -> frame (L1 ++ L2) h h2.
Proof.
  intros H1 H2 x Hx. rewrite in_app_iff in Hx. rewrite H2, H1; [done|tauto|tauto].
Qed.

Lemma frame_weaken L L' h h' :
  frame L h h' -> (forall x, In x L -> In x L') -> frame L' h h'.
Proof. intros H Hs x Hx. apply H. intros Hin. by apply Hx, Hs. Qed.

Lemma frame_app_l L1 L2 h h' : frame L1 h h' -> frame (L1 ++ L2) h h'.
Proof. intros H. apply (frame_weaken _ _ _ _ H). intros x Hx. apply in_app_iff. by left. Qed.

Lemma frame_cons x L h h' : frame L h h' -> frame (x :: L) h h'.
Proof. intros H. apply (frame_weaken _ _ _ _ H). intros y Hy. by right. Qed.

#[export] Hint Resolve frame_app frame_app_l frame_cons : relc.

(** The constraints decode in [h'] as in [h] when each of them does. *)
Lemma decode_list_frame_gen f h h' ls cs :
  (forall l c, decode f h l = Some c -> (forall x, In x (node_locs f h l) -> h' !! x = h !! x) ->
     decode f h' l = Some c /\ node_locs f h' l = node_locs f h l) ->
  Forall2 (fun l c => decode f h l = Some c) ls cs ->
  (forall x, In x (concat (map (node_locs f h) ls)) -> h' !! x = h !! x) ->
  Forall2 (fun l c => decode f h' l = Some c) ls cs /\
  map (node_locs f h') ls = map (node_locs f h) ls.
Proof.
  intros Hone. induction 1 as [|l c ls cs Hd _ IH]; intros Hag; [done|].
  cbn [map concat] in Hag. setoid_rewrite in_app_iff in Hag.
  destruct (Hone l c Hd) as [Hd' Hn']; [intros x Hx; apply Hag; by left|].
  destruct IH as [IH1 IH2]; [intros x Hx; apply Hag; by right|].
  split; [by constructor|cbn [map]; by rewrite Hn', IH2].
Qed.

(** Decoding reads only the objects it visits. *)
Lemma decode_frame f h h' l n :
  decode f h l = Some n -> (forall x, In x (node_locs f h l) -> h' !! x = h !! x) ->
  decode f h' l = Some n /\ node_locs f h' l = node_locs f h l.
Proof.
  revert h h' l n. induction f as [|f IH]; intros h h' l n Hd Hag; [done|].
  cbn [decode node_locs] in *. rewrite (Hag l (or_introl eq_refl)).
  destruct (h !! l) as [[op ls|op args|tag]|]; try done.
  destruct (mapM (decode f h) ls) as [cs|] eqn:Hm; [|done]. apply mapM_Some_1 in Hm.
  destruct (decode_list_frame_gen f h h' ls cs (IH h h') Hm) as [H1 H2];
    [intros x Hx; apply Hag; by right|].
  rewrite (mapM_Some_2 _ _ _ H1). cbn. by rewrite H2.
Qed.

Lemma decode_list_frame f h h' ls cs :
  Forall2 (fun l c => decode f h l = Some c) ls cs ->
  (forall x, In x (concat (map (node_locs f h) ls)) -> h' !! x = h !! x) ->
  Forall2 (fun l c => decode f h' l = Some c) ls cs /\
  map (node_locs f h') ls = map (node_locs f h) ls.
Proof. apply decode_list_frame_gen, decode_frame. Qed.

Lemma hbuild_S depth aliases h l t :
  hbuild (S depth) aliases h l t =
    match h !! l with
    | Some (HLogical _ ls) => hbuild_list (hbuild depth aliases) ls h t
    | Some (HComparison op args) =>
        let ident := Alias.resolve_alias aliases (identifier args) in
        let h' := <[l := HComparison op (mkArgs ident (value args))]> h in
        match split_identifier ident with
        | Ok tokens => Some (Ok (h', walk tokens t))
        | Err e => Some (Err (e, h'))
        end
    | Some (HUnrecognized _) => Some (Ok (h, t))
    | None => Some (Err (TypeError "Cannot read properties of undefined (reading 'type')", h))
    end.
Proof. reflexivity. Qed.

Lemma hbuild_list_cons rec l ls h t :
  hbuild_list rec (l :: ls) h t =
    match rec h l t with
    | Some (Ok (h1, t1)) => hbuild_list rec ls h1 t1
    | r => r
    end.
Proof. reflexivity. Qed.

Lemma NoDup_app_In (L1 L2 : list loc) :
  NoDup (L1 ++ L2) -> NoDup L1 /\ NoDup L2 /\ forall x, In x L1 -> ~ In x L2.
Proof.
  intros (H1 & Hd & H2)%NoDup_app. split_and!; [done|done|].
  intros x Hx Hx2. apply (Hd x); by apply list_elem_of_In.
Qed.

(** ** The heap builder refines the functional builder *)

Section heap_builder.
Context (aliases : option AliasMap).

(** What a call does on an object graph that is a tree of depth below [f]. *)
Definition hbuild_spec (f : nat) : Prop :=
  forall depth h l n t,
  f <= depth -> decode f h l = Some n -> NoDup (node_locs f h l) ->
  match hbuild depth aliases h l t, buildTree aliases n t with
  | Some (Ok (h', t')), Ok (n', t'') =>
      t' = t'' /\ decode f h' l = Some n' /\ node_locs f h' l = node_locs f h l /\
      frame (node_locs f h l) h h'
  | Some (Err (e, h')), Err e' =>
      e = e' /\ decode f h' l = Some (Machine.alias_until aliases n) /\
      node_locs f h' l = node_locs f h l /\ frame (node_locs f h l) h h'
  | _, _ => False
  end.

Lemma hbuild_list_correct f depth ls :
  hbuild_spec f -> f <= depth ->
  forall h cs t,
  Forall2 (fun l c => decode f h l = Some c) ls cs ->
  NoDup (concat (map (node_locs f h) ls)) ->
  match hbuild_list (hbuild depth aliases) ls h t, buildTree_list aliases cs t with
  | Some (Ok (h', t')), Ok (cs', t'') =>
      t' = t'' /\ Forall2 (fun l c => decode f h' l = Some c) ls cs' /\
      map (node_locs f h') ls = map (node_locs f h) ls /\
      frame (concat (map (node_locs f h) ls)) h h'
  | Some (Err (e, h')), Err e' =>
      e = e' /\
      Forall2 (fun l c => decode f h' l = Some c) ls (Machine.alias_until_list aliases (Machine.alias_until aliases) cs) /\
      map (node_locs f h') ls = map (node_locs f h) ls /\
      frame (concat (map (node_locs f h) ls)) h h'
  | _, _ => False
  end.
Proof.
  intros Hspec Hle. induction ls as [|l ls IH]; intros h cs t Hcs Hnd.
  { inversion Hcs; subst. simpl. by split_and!. }
  inversion Hcs as [|? c ? cs' Hc Hrest]; subst.
  cbn [map concat] in Hnd |- *. apply NoDup_app_In in Hnd as (Hnd1 & Hnd2 & Hdisj).
  specialize (Hspec depth h l c t Hle Hc Hnd1).
  rewrite hbuild_list_cons, buildTree_list_cons.
  destruct (hbuild depth aliases h l t) as [[[h1 t1]|[e h1]]|];
    destruct (buildTree aliases c t) as [[c' t1']|e'] eqn:Ec; simpl in Hspec; try contradiction;
    destruct Hspec as (<- & Hd1 & Hl1 & Hf1); simpl.
  - (* the first constraint returns; the others run on the heap it left *)
    destruct (decode_list_frame f h h1 ls cs' Hrest) as [Hrest1 Hmap1];
      [intros x Hx; apply Hf1; intros Hx1; by apply (Hdisj x)|].
    specialize (IH h1 cs' t1 Hrest1). rewrite Hmap1 in IH. specialize (IH Hnd2).
    assert (forall h2, frame (concat (map (node_locs f h) ls)) h1 h2 ->
              decode f h2 l = Some c' /\ node_locs f h2 l = node_locs f h l) as Hkeep.
    { intros h2 Hf2. rewrite <- Hl1. apply decode_frame; [done|].
      intros x Hx. apply Hf2. rewrite Hl1 in Hx. by apply Hdisj. }
    apply buildTree_correct in Ec as (Hs & -> & _). cbn [Machine.alias_until_list]. rewrite Hs.
    destruct (hbuild_list (hbuild depth aliases) ls h1 t1) as [[[h2 t2]|[e2 h2]]|];
      destruct (buildTree_list aliases cs' t1) as [[cs2 t2']|e2']; simpl in IH |- *; try contradiction;
      destruct IH as (<- & Hd2 & Hm2 & Hf2); destruct (Hkeep h2 Hf2) as [Hd2' Hl2'];
      (split_and!; [done|by constructor|by rewrite Hl2', Hm2|eauto with relc]).
  - (* the first constraint throws: the others are not visited *)
    rewrite (buildTree_Err _ _ _ _ Ec).
    destruct (decode_list_frame f h h1 ls cs' Hrest) as [Hrest1 Hmap1];
      [intros x Hx; apply Hf1; intros Hx1; by apply (Hdisj x)|].
    split_and!; [done|by constructor|by rewrite Hl1, Hmap1|].
    eauto with relc.
Qed.

Lemma hbuild_correct f : hbuild_spec f.
Proof.
  induction f as [|f IH]; intros depth h l n t Hle Hd Hnd; [done|].
  destruct depth as [|depth]; [lia|]. cbn [decode node_locs hbuild] in Hd, Hnd |- *.
  destruct (h !! l) as [[op ls|op args|tag]|] eqn:Hl; try done.
  - destruct (mapM (decode f h) ls) as [cs|] eqn:Hm; [|done]. injection Hd as <-.
    apply mapM_Some_1 in Hm. apply NoDup_cons in Hnd as [Hnotin Hnd].
    rewrite list_elem_of_In in Hnotin.
    pose proof (hbuild_list_correct f depth ls IH ltac:(lia) h cs t Hm Hnd) as Hls.
    rewrite buildTree_logical. cbn [Machine.alias_until].
    destruct (hbuild_list (hbuild depth aliases) ls h t) as [[[h' t']|[e h']]|];
      destruct (buildTree_list aliases cs t) as [[cs' t'']|e']; simpl in Hls |- *; try contradiction;
      destruct Hls as (<- & Hd' & Hm' & Hf); rewrite (Hf l Hnotin), Hl, (mapM_Some_2 _ _ _ Hd'), Hm';
      (split_and!; [done|done|done|eauto with relc]).
  - injection Hd as <-. cbn [buildTree Machine.alias_until].
    assert (forall v, frame [l] h (<[l := v]> h)) as Hfr
      by (intros v x Hx; rewrite lookup_insert_ne; [done|intros ->; apply Hx; by left]).
    destruct (split_identifier _); simpl; by rewrite lookup_insert_eq.
  - injection Hd as <-. simpl. rewrite Hl. by split_and!.
Qed.

End heap_builder.

(** A logical object whose first constraint is itself. *)
Lemma hbuild_self_first depth aliases h l op ls t :
  h !! l = Some (HLogical op (l :: ls)) -> hbuild depth aliases h l t = None.
Proof.
  intros Hl. induction depth as [|depth IH]; [done|].
  cbn [hbuild]. rewrite Hl, hbuild_list_cons, IH. done.
Qed.

(** ** The heap builder's properties *)

(** C37: Refinement of the functional builder by the heap builder: on an
    object graph that is a tree (every object reached once) encoding an
    AST [n] of depth below [f], the recursion over references with [f]
    nested calls returns exactly when [buildTree] returns, with the same
    tree or the same exception; the heap it leaves encodes the rewritten AST
    (or, after a throw, the AST as [alias_until] describes it), reaches the
    same objects, and no object outside the AST is changed. *)
Theorem hbuild_refines_buildTree aliases f depth h l n t :
  f <= depth -> decode f h l = Some n -> NoDup (node_locs f h l) ->
  match hbuild depth aliases h l t, buildTree aliases n t with
  | Some (Ok (h', t')), Ok (n', t'') =>
      t' = t'' /\ decode f h' l = Some n' /\ node_locs f h' l = node_locs f h l /\
      frame (node_locs f h l) h h'
  | Some (Err (e, h')), Err e' =>
      e = e' /\ decode f h' l = Some (Machine.alias_until aliases n) /\
      node_locs f h' l = node_locs f h l /\ frame (node_locs f h l) h h'
  | _, _ => False
  end.
Proof. apply hbuild_correct. Qed.

(** C38: An AST object that contains itself among its constraints (first)
    sends [buildTree] into unbounded recursion: no call depth is enough for
    the call to return, whatever the aliases and the tree (in JS, the
    constructor ends with a stack overflow). *)
Theorem hbuild_self_containing_diverges aliases h l op ls t depth :
  h !! l = Some (HLogical op (l :: ls)) -> hbuild depth aliases h l t = None.
Proof. apply hbuild_self_first. Qed.

(** C39: A comparison object referenced by both constraints of a logical
    object is aliased twice in one compile: the second visit reads the
    identifier the first one wrote and resolves it again, so the object
    ends with the alias of the alias, and the tree receives the relation
    path of both. *)
Theorem hbuild_shared_constraint_realiased aliases h l op c op' args s1 s2 t :
  h !! l = Some (HLogical op [c; c]) -> h !! c = Some (HComparison op' args) ->
  Alias.resolve_alias aliases (identifier args) = JsString s1 ->
  Alias.resolve_alias aliases (JsString s1) = JsString s2 ->
  hbuild 2 aliases h l t =
    Some (Ok (<[c := HComparison op' (mkArgs (JsString s2) (value args))]> h,
              walk (js_split "." s2) (walk (js_split "." s1) t))).
Proof.
  intros Hl Hc H1 H2. rewrite hbuild_S, Hl, hbuild_list_cons, hbuild_S, Hc, H1.
  cbn [split_identifier]. cbn beta iota zeta.
  rewrite hbuild_list_cons, hbuild_S, lookup_insert_eq. cbn [identifier value].
  rewrite H2. cbn [split_identifier hbuild_list]. by rewrite insert_insert_eq.
Qed.

(** ** Witnesses *)

Definition aliasing_heap : heap :=
  <[1 := HLogical "match_all" [2; 3]]>
  (<[2 := HComparison "geq" (mkArgs (JsString "salary") (SNumber 60000))]>
  (<[3 := HComparison "geq" (mkArgs (JsString "salary_start_date") (SString "1986-06-26"))]> ∅)).

Definition aliasing_aliases : AliasMap :=
  mkAliases (<["salary" := "salaries.salary"]> (<["salary_start_date" := "salaries.from_date"]> ∅)).

Definition aliasing_ast : Node :=
  Logical "match_all"
    [Comparison "geq" (mkArgs (JsString "salary") (SNumber 60000));
     Comparison "geq" (mkArgs (JsString "salary_start_date") (SString "1986-06-26"))].

Lemma hbuild_refines_buildTree_witness :
  2 <= 2 /\ decode 2 aliasing_heap 1 = Some aliasing_ast /\
  NoDup (node_locs 2 aliasing_heap 1) /\
  match hbuild 2 (Some aliasing_aliases) aliasing_heap 1 empty_root,
        buildTree (Some aliasing_aliases) aliasing_ast empty_root with
  | Some (Ok (h', t')), Ok (n', t'') =>
      t' = t'' /\ decode 2 h' 1 = Some n' /\
      node_locs 2 h' 1 = node_locs 2 aliasing_heap 1 /\
      frame (node_locs 2 aliasing_heap 1) aliasing_heap h'
  | Some (Err (e, h')), Err e' =>
      e = e' /\ decode 2 h' 1 = Some (Machine.alias_until (Some aliasing_aliases) aliasing_ast) /\
      node_locs 2 h' 1 = node_locs 2 aliasing_heap 1 /\
      frame (node_locs 2 aliasing_heap 1) aliasing_heap h'
  | _, _ => False
  end.
Proof.
  assert (decode 2 aliasing_heap 1 = Some aliasing_ast) as Hd by (vm_compute; reflexivity).
  assert (NoDup (node_locs 2 aliasing_heap 1)) as Hnd
    by (vm_compute; apply NoDup_ListNoDup; repeat constructor; simpl; lia).
  split_and!; [lia|exact Hd|exact Hnd|].
  exact (hbuild_refines_buildTree (Some aliasing_aliases) 2 2 aliasing_heap 1 _ empty_root
           (le_n 2) Hd Hnd).
Defined.

(** With [x -> "y"] and [y -> "r.f"], [x = 1 AND x = 1] over one shared
    object joins [r]; the same AST with two distinct objects joins nothing. *)
Lemma hbuild_shared_constraint_realiased_witness :
  let m := mkAliases (<["x" := "y"]> (<["y" := "r.f"]> ∅)) in
  let cmp := mkArgs (JsString "x") (SNumber 1) in
  let h : heap := <[1 := HLogical "and" [2; 2]]> (<[2 := HComparison "eq" cmp]> ∅) in
  h !! 1 = Some (HLogical "and" [2; 2]) /\ h !! 2 = Some (HComparison "eq" cmp) /\
  Alias.resolve_alias (Some m) (JsString "x") = JsString "y" /\
  Alias.resolve_alias (Some m) (JsString "y") = JsString "r.f" /\
  hbuild 2 (Some m) h 1 empty_root =
    Some (Ok (<[2 := HComparison "eq" (mkArgs (JsString "r.f") (SNumber 1))]> h,
              mkNode "" [mkNode "r" []])) /\
  buildTree (Some m) (Logical "and" [Comparison "eq" cmp; Comparison "eq" cmp]) empty_root =
    Ok (Logical "and" [Comparison "eq" (mkArgs (JsString "y") (SNumber 1));
                       Comparison "eq" (mkArgs (JsString "y") (SNumber 1))], empty_root).
Proof.
  intros m cmp h.
  assert (h !! 1 = Some (HLogical "and" [2; 2])) as Hl by reflexivity.
  assert (h !! 2 = Some (HComparison "eq" cmp)) as Hc by reflexivity.
  assert (Alias.resolve_alias (Some m) (JsString "x") = JsString "y") as H1 by (vm_compute; reflexivity).
  assert (Alias.resolve_alias (Some m) (JsString "y") = JsString "r.f") as H2 by (vm_compute; reflexivity).
  split_and!; [exact Hl|exact Hc|exact H1|exact H2| |vm_compute; reflexivity].
  rewrite (hbuild_shared_constraint_realiased (Some m) h 1 "and" 2 "eq" cmp "y" "r.f" empty_root
             Hl Hc H1 H2).
  vm_compute. reflexivity.
Defined.

Lemma hbuild_self_containing_diverges_witness :
  (<[1 := HLogical "and" [1]]> ∅ : heap) !! 1 = Some (HLogical "and" [1]) /\
  hbuild 1000 None (<[1 := HLogical "and" [1]]> ∅) 1 empty_root = None.
Proof.
  split; [reflexivity|].
  exact (hbuild_self_containing_diverges None (<[1 := HLogical "and" [1]]> ∅) 1 "and" []
           empty_root 1000 eq_refl).
Defined.

End Heap.
