(* ===== verification/Expression.v ===== *)
(** * The expression serializer (relation.ts, [buildExpression], lines 47-58)

    A leaf prints its name; a node with one child prints [name.child]; a
    node with several prints [name.[c1,c2,...]]; the dot is left out after
    an empty name ([name && '.']), so the root (named [""]) prints only its
    children.  The file also gives a parser for the format and proves that
    it inverts the serializer on well-formed trees (names non-empty and free
    of [. [ ] ,]), so the expression is unambiguous there; it gives the
    expression of every root of chains, and shows that an extra unnamed
    level, or a name holding [[a,b]], gives another tree that prints the
    same. *)

From S2P Require Import Prelude RelationTree.

(** [`${name}${name && '.'}`]: [name && '.'] is [name] when [name] is the
    falsy empty string, ['.'] otherwise. *)
Definition dot_if_named (name : string) : string :=
  if bool_decide (name = "") then "" else ".".

(** Lines 47-58. *)
Fixpoint buildExpression (node : RelationNode) : string :=
  match node with
  | mkNode name children =>
      match children with
      | [] => name
      | [c] => name +++ dot_if_named name +++ buildExpression c
      | _ => name +++ dot_if_named name +++
               "[" +++ js_join "," (map buildExpression children) +++ "]"
      end
  end.

(** ** Parsing the expression back *)

Definition is_special (a : ascii) : bool :=
  Ascii.eqb a "." || Ascii.eqb a "[" || Ascii.eqb a "]" || Ascii.eqb a ",".

(** The longest prefix without a special character, and the rest. *)
Fixpoint read_name (s : string) : string * string :=
  match s with
  | EmptyString => (EmptyString, EmptyString)
  | String a s' =>
      if is_special a then (EmptyString, s)
      else let '(n, r) := read_name s' in (String a n, r)
  end.

(** A non-root node: a non-empty name, then nothing, [.child] or
    [.[child,child,...]]. *)
Fixpoint parse_node (fuel : nat) (s : string) : option (RelationNode * string) :=
  match fuel with
  | 0 => None
  | S f =>
      let '(n, r) := read_name s in
      if bool_decide (n = "") then None else
      match r with
      | String a r' =>
          if Ascii.eqb a "." then
            match r' with
            | String b r'' =>
                if Ascii.eqb b "[" then
                  match parse_list f r'' with
                  | Some (cs, String e r3) =>
                      if Ascii.eqb e "]" then Some (mkNode n cs, r3) else None
                  | _ => None
                  end
                else
                  match parse_node f r' with
                  | Some (c, r3) => Some (mkNode n [c], r3)
                  | None => None
                  end
            | EmptyString => None
            end
          else Some (mkNode n [], r)
      | EmptyString => Some (mkNode n [], EmptyString)
      end
  end
with parse_list (fuel : nat) (s : string) : option (list RelationNode * string) :=
  match fuel with
  | 0 => None
  | S f =>
      match parse_node f s with
      | Some (c, String a r') =>
          if Ascii.eqb a "," then
            match parse_list f r' with
            | Some (cs, r'') => Some (c :: cs, r'')
            | None => None
            end
          else Some ([c], String a r')
      | Some (c, EmptyString) => Some ([c], EmptyString)
      | None => None
      end
  end.

(** The root: [""], a bracketed list of children, or one child. *)
Definition parse_expression (s : string) : option RelationNode :=
  let fuel := S (String.length s) in
  match s with
  | EmptyString => Some (mkNode "" [])
  | String a r =>
      if Ascii.eqb a "[" then
        match parse_list fuel r with
        | Some (cs, String e EmptyString) =>
            if Ascii.eqb e "]" then Some (mkNode "" cs) else None
        | _ => None
        end
      else
        match parse_node fuel s with
        | Some (c, EmptyString) => Some (mkNode "" [c])
        | _ => None
        end
  end.

(** ** Well-formed trees *)

Fixpoint no_special (s : string) : bool :=
  match s with
  | EmptyString => true
  | String a s' => negb (is_special a) && no_special s'
  end.

Definition name_ok (n : string) : bool := negb (bool_decide (n = "")) && no_special n.

(** Every name of a non-root node is non-empty and free of [. [ ] ,]. *)
Fixpoint names_ok (t : RelationNode) : bool :=
  match t with
  | mkNode n cs => name_ok n && forallb names_ok cs
  end.

(** A root named [""] whose descendants have well-formed names. *)
Definition plan_wf (t : RelationNode) : bool :=
  bool_decide (name t = "") && forallb names_ok (children t).

(** What may follow a serialized non-root node inside an expression. *)
Definition rest_ok (r : string) : bool :=
  match r with
  | EmptyString => true
  | String a _ => Ascii.eqb a "]" || Ascii.eqb a ","
  end.

(** ** Lemmas on the serializer and the parser *)

Definition starts_special (r : string) : bool :=
  match r with EmptyString => true | String a _ => is_special a end.

Lemma read_name_app n r :
  no_special n = true -> starts_special r = true -> read_name (n +++ r) = (n, r).
Proof.
  intros Hn Hr. induction n as [|a n IH]; simpl in *.
  - destruct r as [|b r]; simpl in *; [done|]. by rewrite Hr.
  - apply andb_true_iff in Hn as [Ha Hn]. apply negb_true_iff in Ha.
    rewrite Ha, IH by done. done.
Qed.

Lemma rest_ok_starts_special r : rest_ok r = true -> starts_special r = true.
Proof.
  destruct r as [|a r]; simpl; [done|]. unfold is_special.
  intros [H|H]%orb_true_iff; rewrite H; by rewrite ?orb_true_r.
Qed.

Lemma dot_if_named_ok n : name_ok n = true -> dot_if_named n = ".".
Proof.
  unfold name_ok, dot_if_named. intros [Hn _]%andb_true_iff.
  by case_bool_decide.
Qed.

(** A well-formed node prints starting with its first, ordinary, character. *)
Lemma buildExpression_head t :
  name_ok (name t) = true -> exists a s, buildExpression t = String a s /\ is_special a = false.
Proof.
  destruct t as [[|a n] cs]; unfold name_ok; simpl; [done|].
  intros H. destruct (is_special a) eqn:Ha; simpl in H; [by rewrite ?andb_false_r in H|].
  destruct cs as [|c [|c' cs]]; eauto.
Qed.

Lemma node_count_pos t : 1 <= node_count t.
Proof. destruct t; simpl; lia. Qed.

Lemma names_ok_unfold n cs :
  names_ok (mkNode n cs) = true <-> name_ok n = true /\ Forall (fun c => names_ok c = true) cs.
Proof. simpl. by rewrite andb_true_iff, forallb_forall, List.Forall_forall. Qed.

Lemma rest_ok_not_dot a r : rest_ok (String a r) = true -> Ascii.eqb a "." = false.
Proof.
  simpl. intros [H|H]%orb_true_iff; apply Ascii.eqb_eq in H as ->; done.
Qed.

Lemma name_ok_inv n : name_ok n = true -> n <> "" /\ no_special n = true.
Proof. unfold name_ok. intros [H1 H2]%andb_true_iff. split; [|done]. by case_bool_decide. Qed.

Lemma buildExpression_branch n cs :
  2 <= length cs ->
  buildExpression (mkNode n cs) =
    n +++ dot_if_named n +++ "[" +++ js_join "," (map buildExpression cs) +++ "]".
Proof. destruct cs as [|c [|c' cs]]; simpl; [lia..|done]. Qed.

(** The property proved of every well-formed node: its expression, followed
    by anything that may follow a node, parses back to it. *)
Definition parses_back (t : RelationNode) : Prop :=
  forall fuel rest, 2 * node_count t <= fuel -> rest_ok rest = true ->
  parse_node fuel (buildExpression t +++ rest) = Some (t, rest).

Lemma parse_list_join cs fuel r :
  cs <> [] -> Forall parses_back cs ->
  1 + 2 * list_sum (map node_count cs) <= fuel ->
  parse_list fuel (js_join "," (map buildExpression cs) +++ String "]" r) =
    Some (cs, String "]" r).
Proof.
  intros Hne Hcs. revert fuel Hne. induction Hcs as [|c cs Hc Hcs IH]; intros fuel Hne Hf; [done|].
  destruct fuel as [|g]; [lia|]. cbn [map list_sum fold_right] in Hf.
  destruct cs as [|c' cs'].
  - cbn [parse_list map]. simpl js_join. rewrite Hc; [done|lia|reflexivity].
  - cbn [parse_list]. cbn [map]. rewrite js_join_cons by done. rewrite !str_app_assoc.
    simpl (String.append "," _). rewrite Hc; [|lia|reflexivity]. simpl Ascii.eqb.
    cbn iota. rewrite IH; [done|done|]. cbn [map] in *. unfold list_sum in *. simpl in *.
    pose proof (node_count_pos c). lia.
Qed.

Lemma parse_node_unfold f s n r :
  read_name s = (n, r) -> n <> "" ->
  parse_node (S f) s =
    match r with
    | String a r' =>
        if Ascii.eqb a "." then
          match r' with
          | String b r'' =>
              if Ascii.eqb b "[" then
                match parse_list f r'' with
                | Some (cs, String e r3) =>
                    if Ascii.eqb e "]" then Some (mkNode n cs, r3) else None
                | _ => None
                end
              else
                match parse_node f r' with
                | Some (c, r3) => Some (mkNode n [c], r3)
                | None => None
                end
          | EmptyString => None
          end
        else Some (mkNode n [], r)
    | EmptyString => Some (mkNode n [], EmptyString)
    end.
Proof. intros Hs Hn. simpl. rewrite Hs. by rewrite bool_decide_false. Qed.

Lemma parse_node_leaf f n rest :
  name_ok n = true -> rest_ok rest = true -> parse_node (S f) (n +++ rest) = Some (mkNode n [], rest).
Proof.
  intros [Hne Hns]%name_ok_inv Hr.
  rewrite (parse_node_unfold f _ n rest) by (done || by apply read_name_app, rest_ok_starts_special).
  destruct rest as [|a r]; [done|]. by rewrite (rest_ok_not_dot a r Hr).
Qed.

Lemma parse_node_chain f n a s :
  name_ok n = true -> is_special a = false ->
  parse_node (S f) (n +++ "." +++ String a s) =
    match parse_node f (String a s) with
    | Some (c, r3) => Some (mkNode n [c], r3)
    | None => None
    end.
Proof.
  intros [Hne Hns]%name_ok_inv Ha.
  rewrite (parse_node_unfold f _ n (String "." (String a s))) by (done || by apply read_name_app).
  simpl. assert (Ascii.eqb a "[" = false) as ->; [|done].
  apply Ascii.eqb_neq. intros ->. done.
Qed.

Lemma parse_node_branch f n x :
  name_ok n = true ->
  parse_node (S f) (n +++ "." +++ "[" +++ x) =
    match parse_list f x with
    | Some (cs, String e r3) => if Ascii.eqb e "]" then Some (mkNode n cs, r3) else None
    | _ => None
    end.
Proof.
  intros [Hne Hns]%name_ok_inv.
  rewrite (parse_node_unfold f _ n (String "." (String "[" x))) by (done || by apply read_name_app).
  done.
Qed.

(** Every well-formed node parses back from its expression. *)
Lemma parse_node_buildExpression t : names_ok t = true -> parses_back t.
Proof.
  induction t as [n cs IH] using RelationNode_ind.
  intros [Hn Hcs]%names_ok_unfold fuel rest Hf Hr.
  destruct fuel as [|f]; [pose proof (node_count_pos (mkNode n cs)); lia|].
  destruct cs as [|c [|c' cs']].
  - by apply parse_node_leaf.
  - cbn [buildExpression]. rewrite dot_if_named_ok by done. autorewrite with relc.
    inversion IH as [|? ? IHc _]; inversion Hcs as [|? ? Hc _]; subst.
    destruct (buildExpression_head c) as (a & s & Hs & Ha).
    { destruct c as [cn ccs]. by apply names_ok_unfold in Hc as [? _]. }
    rewrite Hs. change (String a s +++ rest) with (String a (s +++ rest)).
    rewrite parse_node_chain by done.
    change (String a (s +++ rest)) with (String a s +++ rest). rewrite <- Hs.
    rewrite IHc; [done|done| |done]. simpl in Hf. lia.
  - remember (c :: c' :: cs') as cs eqn:Ecs.
    assert (2 <= length cs) by (subst; simpl; lia). assert (cs <> []) by (by subst).
    clear Ecs. rewrite buildExpression_branch, dot_if_named_ok by done. rewrite !str_app_assoc.
    rewrite parse_node_branch by done. change ("]" +++ rest) with (String "]" rest).
    rewrite parse_list_join; [done|done| |].
    + apply Forall_forall. intros x Hx. rewrite List.Forall_forall in IH.
      apply IH; [by apply list_elem_of_In|]. rewrite Forall_forall in Hcs. by apply Hcs.
    + change (node_count (mkNode n cs)) with (S (list_sum (map node_count cs))) in Hf. lia.
Qed.

Lemma node_count_sum_bound cs :
  Forall (fun t => names_ok t = true ->
                   2 * node_count t <= S (String.length (buildExpression t))) cs ->
  Forall (fun c => names_ok c = true) cs ->
  2 * list_sum (map node_count cs) <=
    list_sum (map String.length (map buildExpression cs)) + length cs.
Proof.
  induction 1 as [|x xs IHx IHxs IH]; intros Hok; [simpl; lia|].
  inversion Hok as [|? ? Hx Hxs]; subst. specialize (IHx Hx). specialize (IH Hxs).
  cbn [map length]. rewrite !list_sum_cons. lia.
Qed.

(** The serialized length bounds the number of nodes (the parser's fuel). *)
Lemma node_count_expression_length t :
  names_ok t = true -> 2 * node_count t <= S (String.length (buildExpression t)).
Proof.
  induction t as [n cs IH] using RelationNode_ind.
  intros [Hn Hcs]%names_ok_unfold. destruct (name_ok_inv n Hn) as [Hne _].
  assert (1 <= String.length n) by (destruct n; [done|simpl; lia]).
  destruct cs as [|c [|c' cs']].
  - simpl. lia.
  - cbn [buildExpression]. rewrite dot_if_named_ok by done. autorewrite with relc.
    inversion IH as [|? ? IHc _]; inversion Hcs; subst. specialize (IHc ltac:(done)).
    simpl. lia.
  - pose proof (node_count_sum_bound _ IH Hcs) as Hb.
    remember (c :: c' :: cs') as cs eqn:Ecs.
    assert (2 <= length cs) by (subst; simpl; lia). assert (cs <> []) by (by subst).
    clear Ecs. rewrite buildExpression_branch, dot_if_named_ok by done.
    autorewrite with relc. simpl String.length.
    pose proof (js_join_length "," (map buildExpression cs) ltac:(by destruct cs)) as Hj.
    rewrite length_map in Hj.
    change (node_count (mkNode n cs)) with (S (list_sum (map node_count cs))). lia.
Qed.

Lemma Forall_names_ok cs :
  forallb names_ok cs = true -> Forall (fun c => names_ok c = true) cs.
Proof. intros H. apply List.Forall_forall. by apply forallb_forall. Qed.

Lemma Forall_parses_back cs :
  forallb names_ok cs = true -> Forall parses_back cs.
Proof.
  intros H. apply List.Forall_forall. intros c Hc.
  apply parse_node_buildExpression. by apply (proj1 (forallb_forall _ _) H).
Qed.

Lemma Forall_length_bound cs :
  forallb names_ok cs = true ->
  Forall (fun t => names_ok t = true ->
                   2 * node_count t <= S (String.length (buildExpression t))) cs.
Proof.
  intros _. apply List.Forall_forall. intros c _. apply node_count_expression_length.
Qed.

Lemma parse_expression_wf t :
  plan_wf t = true -> parse_expression (buildExpression t) = Some t.
Proof.
  destruct t as [n cs]. unfold plan_wf; cbn [name children].
  intros [Hn Hcs]%andb_true_iff. apply bool_decide_eq_true in Hn as ->.
  destruct cs as [|c [|c' cs']]; [done| |].
  - cbn [buildExpression]. simpl (dot_if_named ""). simpl (String.append "" _).
    simpl in Hcs. rewrite andb_true_r in Hcs.
    destruct (buildExpression_head c) as (a & s & Hs & Ha).
    { destruct c as [cn ccs]. by apply names_ok_unfold in Hcs as [? _]. }
    pose proof (node_count_expression_length c Hcs) as Hlen.
    unfold parse_expression. rewrite Hs.
    assert (Ascii.eqb a "[" = false) as ->.
    { apply Ascii.eqb_neq. intros ->. done. }
    rewrite <- (str_app_nil_r (String a s)), <- Hs.
    rewrite (parse_node_buildExpression c Hcs); [done| |done].
    rewrite str_app_nil_r. exact Hlen.
  - pose proof (node_count_sum_bound _ (Forall_length_bound _ Hcs) (Forall_names_ok _ Hcs)) as Hb.
    remember (c :: c' :: cs') as cs eqn:Ecs.
    assert (2 <= length cs) by (subst; simpl; lia). assert (cs <> []) by (by subst).
    clear Ecs. rewrite buildExpression_branch by done.
    simpl (dot_if_named ""). simpl (String.append "" _). simpl (String.append "[" _).
    pose proof (js_join_length "," (map buildExpression cs) ltac:(by destruct cs)) as Hj.
    rewrite length_map in Hj.
    unfold parse_expression. simpl Ascii.eqb. cbn beta iota zeta.
    change ("]") with (String "]" EmptyString).
    rewrite parse_list_join; [done|done|by apply Forall_parses_back|].
    simpl String.length. rewrite str_length_app. simpl String.length. lia.
Qed.

(** C13: Round trip: the relation expression of a well-formed join plan
    (root named [""], every other name non-empty and free of [. [ ] ,])
    parses back to the very same tree, children in order. *)
Theorem parse_buildExpression t :
  plan_wf t = true -> parse_expression (buildExpression t) = Some t.
Proof. apply parse_expression_wf. Qed.

(** C14: On well-formed join plans the relation expression is unambiguous:
    two plans with the same expression are the same tree. *)
Corollary buildExpression_injective t1 t2 :
  plan_wf t1 = true -> plan_wf t2 = true ->
  buildExpression t1 = buildExpression t2 -> t1 = t2.
Proof.
  intros H1 H2 He. apply parse_expression_wf in H1, H2. congruence.
Qed.

(** ** Well-formedness of built plans *)

Lemma names_ok_insert_path p t :
  Forall (fun s => name_ok s = true) p -> names_ok t = true ->
  names_ok (insert_path p t) = true.
Proof.
  intros Hp. revert t. induction Hp as [|s p Hs Hp IH]; intros [n cs] Ht; [done|].
  apply names_ok_unfold in Ht as [Hn Hcs]. cbn [insert_path name children names_ok].
  rewrite Hn. simpl.
  assert (forallb names_ok cs = true) as Hcs' by (apply forallb_forall, List.Forall_forall; exact Hcs).
  destruct (find_child s cs) as [i|].
  - by apply forallb_alter.
  - rewrite forallb_app, Hcs'. simpl. rewrite IH; [done|]. simpl. by rewrite Hs.
Qed.

Lemma plan_wf_insert_path p t :
  Forall (fun s => name_ok s = true) p -> plan_wf t = true -> plan_wf (insert_path p t) = true.
Proof.
  intros Hp Ht. destruct p as [|s p]; [done|]. destruct t as [n cs].
  unfold plan_wf in *. cbn [insert_path name children] in *.
  apply andb_true_iff in Ht as [Hn Hcs]. rewrite Hn. simpl.
  inversion Hp as [|? ? Hs Hp']; subst.
  destruct (find_child s cs) as [i|].
  - apply forallb_alter; [|done]. intros c Hc. by apply names_ok_insert_path.
  - rewrite forallb_app, Hcs. simpl. rewrite names_ok_insert_path; [done|done|]. simpl. by rewrite Hs.
Qed.

Lemma plan_wf_insert_paths ps t :
  Forall (Forall (fun s => name_ok s = true)) ps -> plan_wf t = true ->
  plan_wf (insert_paths ps t) = true.
Proof.
  intros Hps. revert t. induction Hps as [|p ps Hp Hps IH]; intros t Ht; [done|].
  apply IH. by apply plan_wf_insert_path.
Qed.

(** ** The expression of the spec's examples *)

(** A chain [n > n1 > ... > nk] of single children. *)
Fixpoint chain_node (n : string) (ns : list string) : RelationNode :=
  match ns with
  | [] => mkNode n []
  | m :: ns' => mkNode n [chain_node m ns']
  end.

Lemma buildExpression_chain_node n ns :
  Forall (fun x => x <> "") (n :: ns) -> buildExpression (chain_node n ns) = js_join "." (n :: ns).
Proof.
  revert n. induction ns as [|m ns IH]; intros n Hne; [done|].
  inversion Hne as [|? ? Hn Hrest]; subst. cbn [chain_node].
  change (buildExpression (mkNode n [chain_node m ns]))
    with (n +++ dot_if_named n +++ buildExpression (chain_node m ns)).
  rewrite IH by done. unfold dot_if_named. rewrite bool_decide_eq_false_2 by done.
  by rewrite (js_join_cons "." n (m :: ns)).
Qed.

Lemma buildExpression_chains (chains : list (string * list string)) :
  Forall (fun '(n, ns) => Forall (fun x => x <> "") (n :: ns)) chains ->
  buildExpression (mkNode "" (map (fun '(n, ns) => chain_node n ns) chains)) =
    match chains with
    | [] => ""
    | [(n, ns)] => js_join "." (n :: ns)
    | _ => "[" +++ js_join "," (map (fun '(n, ns) => js_join "." (n :: ns)) chains) +++ "]"
    end.
Proof.
  intros Hall. destruct chains as [|[n ns] [|c2 cs]]; [done| |].
  - cbn [map]. change (buildExpression (mkNode "" [chain_node n ns]))
      with (buildExpression (chain_node n ns)).
    apply buildExpression_chain_node. by inversion Hall.
  - rewrite buildExpression_branch by (simpl; lia).
    unfold dot_if_named. rewrite bool_decide_eq_true_2 by done. cbn [String.append].
    rewrite map_map. f_equal. f_equal. f_equal.
    apply map_ext_in. intros [m ms] Hin. apply buildExpression_chain_node.
    rewrite List.Forall_forall in Hall. exact (Hall (m, ms) Hin).
Qed.

(** The expression of a root whose children are leaves. *)
Definition leaves_expression (rs : list string) : string :=
  match rs with
  | [] => ""
  | [r] => r
  | _ => "[" +++ js_join "," rs +++ "]"
  end.

Lemma buildExpression_leaves rs :
  Forall (fun r => r <> "") rs -> buildExpression (mkNode "" (map leaf rs)) = leaves_expression rs.
Proof.
  intros Hrs. pose proof (buildExpression_chains (map (fun r => (r, [])) rs)) as H.
  rewrite !map_map in H. cbn beta iota in H.
  change (map leaf rs) with (map (fun x => chain_node x []) rs). rewrite H.
  - destruct rs as [|r [|r2 rs]]; [done|done|]. cbn [leaves_expression].
    rewrite (map_ext _ id), map_id by done. done.
  - apply Forall_map. eapply Forall_impl; [exact Hrs|]. intros r Hr. by constructor.
Qed.

(** C15: Chains and branches (spec, section 8): under the unnamed root, a
    single chain of non-empty names [a > b > c] prints as the names joined
    by dots, ["a.b.c"], without brackets; several chains print as their
    dotted forms joined by commas in brackets, ["[a.b,c]"]; no chain prints
    as the empty expression. *)
Theorem buildExpression_chain_branch (chains : list (string * list string)) :
  Forall (fun '(n, ns) => Forall (fun x => x <> "") (n :: ns)) chains ->
  buildExpression (mkNode "" (map (fun '(n, ns) => chain_node n ns) chains)) =
    match chains with
    | [] => ""
    | [(n, ns)] => js_join "." (n :: ns)
    | _ => "[" +++ js_join "," (map (fun '(n, ns) => js_join "." (n :: ns)) chains) +++ "]"
    end.
Proof. apply buildExpression_chains. Qed.

(** C16: Outside well-formed plans the expression is ambiguous, whatever
    the names: a node with an empty name (from an identifier such as
    [".a.f"]) prints nothing and no dot, so the plan [root > "" > c] prints
    like [root > c]; and a relation named ["[a,b]"] prints like the two
    relations [a] and [b].  In both cases the plans differ. *)
Theorem buildExpression_ambiguous (c : RelationNode) (a b : string) :
  buildExpression (mkNode "" [mkNode "" [c]]) = buildExpression (mkNode "" [c]) /\
  mkNode "" [mkNode "" [c]] <> mkNode "" [c] /\
  buildExpression (mkNode "" [mkNode ("[" +++ a +++ "," +++ b +++ "]") []]) =
    buildExpression (mkNode "" [mkNode a []; mkNode b []]) /\
  mkNode "" [mkNode ("[" +++ a +++ "," +++ b +++ "]") []] <> mkNode "" [mkNode a []; mkNode b []].
Proof.
  split_and!; [reflexivity| |simpl; by autorewrite with relc|discriminate].
  intros H%(f_equal node_count). simpl in H. lia.
Qed.

(** ** Witnesses *)

Definition sample_tree : RelationNode :=
  mkNode "" [mkNode "a" [mkNode "b" []; mkNode "x" [mkNode "y" []]]; mkNode "q" []].

Lemma parse_buildExpression_witness :
  plan_wf sample_tree = true /\
  buildExpression sample_tree = "[a.[b,x.y],q]" /\
  parse_expression (buildExpression sample_tree) = Some sample_tree.
Proof.
  split_and!; [reflexivity|reflexivity|]. apply parse_buildExpression. reflexivity.
Defined.

Lemma buildExpression_injective_witness :
  plan_wf sample_tree = true /\ sample_tree = sample_tree.
Proof.
  split; [reflexivity|]. apply buildExpression_injective; reflexivity.
Defined.

Lemma buildExpression_chain_branch_witness :
  Forall (fun '(n, ns) => Forall (fun x => x <> "") (n :: ns)) [("a", ["b"]); ("c", [])] /\
  buildExpression (mkNode "" (map (fun '(n, ns) => chain_node n ns) [("a", ["b"]); ("c", [])])) =
    "[a.b,c]".
Proof.
  assert (Forall (fun '(n, ns) => Forall (fun x => x <> "") (n :: ns)) [("a", ["b"]); ("c", [])])
    as H by (repeat constructor; discriminate).
  split; [exact H|]. exact (buildExpression_chain_branch _ H).
Defined.

Lemma buildExpression_ambiguous_witness :
  buildExpression (mkNode "" [mkNode "" [mkNode "a" []]]) = "a" /\
  buildExpression (mkNode "" [mkNode "[a,b]" []]) = "[a,b]" /\
  mkNode "" [mkNode "[a,b]" []] <> mkNode "" [mkNode "a" []; mkNode "b" []].
Proof.
  pose proof (buildExpression_ambiguous (mkNode "a" []) "a" "b") as (H1 & _ & H3 & H4).
  split_and!; [exact H1|exact H3|exact H4].
Defined.
