(* ===== verification/Relation.v ===== *)
(** * The relation compiler (relation.ts, class [Relation], lines 4-18)

    [new Relation(ast, aliases)] starts from a fresh root, runs [buildTree]
    and then [buildExpression] once; the instance exposes [tree] and
    [expression].  The constructor also leaves the caller's AST with its
    identifiers overwritten, and it throws when [buildTree] throws.  The
    file states the constructor's contract, proves the repository's test
    scenarios (src/test/search/search.spec.ts) for every predicate of their
    shape, characterizes when the constructor throws, and proves the
    behaviours the modelling exposed. *)

From S2P Require Import Prelude Ast Alias RelationTree TreeCanon Builder Machine Heap Expression.
From Stdlib Require Import ZArith.

Module Relation.

(** Line 4: a relation expression is a string. *)
Definition RelationExpression : Type := string.

(** The fields of an instance (lines 7-8). *)
Record Relation : Type := mkRelation {
  tree : RelationNode;
  expression : RelationExpression
}.

(** Lines 14-18: the constructor; the new instance and the caller's AST as
    the constructor leaves it. *)
Definition construct (ast : Node) (aliases : option AliasMap)
  : result JsError (Relation * Node) :=
  '(ast', t) ← buildTree aliases ast empty_root;
  Ok (mkRelation t (buildExpression t), ast').

(** Lines 14-18 on the caller's object graph: the AST is the object at [l]
    of the heap [h]; the instance and the heap the constructor leaves, the
    exception and the heap a throw leaves, or [None] when [depth] nested
    calls do not suffice. *)
Definition construct_heap (depth : nat) (h : Heap.heap) (l : Heap.loc)
    (aliases : option AliasMap) : option (result (JsError * Heap.heap) (Relation * Heap.heap)) :=
  match Heap.hbuild depth aliases h l empty_root with
  | Some (Ok (h', t)) => Some (Ok (mkRelation t (buildExpression t), h'))
  | Some (Err (e, h')) => Some (Err (e, h'))
  | None => None
  end.

(** The expression of a compile, when it does not throw. *)
Definition compiled_expression (ast : Node) (aliases : option AliasMap) : option string :=
  match construct ast aliases with
  | Ok (r, _) => Some (expression r)
  | Err _ => None
  end.

(** ** The predicates of the repository's tests (search.spec.ts) *)

(** Lines 23-27: [match_all: { eq: ["first_name", "Jerry"] }]. *)
Definition simple_search_1 : Node :=
  Logical "match_all" [Comparison "eq" (mkArgs (JsString "first_name") (SString "Jerry"))].

(** Lines 47-52: two comparisons on [salaries]. *)
Definition simple_search_2 : Node :=
  Logical "match_all"
    [Comparison "geq" (mkArgs (JsString "salaries.salary") (SNumber 60000));
     Comparison "geq" (mkArgs (JsString "salaries.from_date") (SString "1986-06-26"))].

(** Lines 80-91: the same comparisons through aliases. *)
Definition aliasing_1 : Node :=
  Logical "match_all"
    [Comparison "geq" (mkArgs (JsString "salary") (SNumber 60000));
     Comparison "geq" (mkArgs (JsString "salary_start_date") (SString "1986-06-26"))].

Definition aliasing_1_aliases : AliasMap :=
  mkAliases (<["salary" := "salaries.salary"]> (<["salary_start_date" := "salaries.from_date"]> ∅)).

Definition simple_search_2_items : list (string * string * string * Scalar) :=
  [("geq", "salaries", "salary", SNumber 60000); ("geq", "salaries", "from_date", SString "1986-06-26")].

Definition aliasing_1_items : list (string * (string * string * string * Scalar)) :=
  [("salary", ("geq", "salaries", "salary", SNumber 60000));
   ("salary_start_date", ("geq", "salaries", "from_date", SString "1986-06-26"))].

Definition chained_aliases : AliasMap := mkAliases (<["x" := "y"]> (<["y" := "r.f"]> ∅)).

(** [aliasing_1] with a further comparison on ["toString"]. *)
Definition aliasing_toString : Node :=
  Logical "match_all"
    [Comparison "geq" (mkArgs (JsString "salary") (SNumber 60000));
     Comparison "eq" (mkArgs (JsString "toString") (SString "x"))].

(** ** The constructor's contract *)

Lemma construct_correct ast aliases r ast' :
  construct ast aliases = Ok (r, ast') <->
  identifiers_splittable aliases ast = true /\ ast' = aliased_ast aliases ast /\
  tree r = insert_paths (relation_paths aliases ast) empty_root /\
  expression r = buildExpression (tree r).
Proof.
  unfold construct. destruct (buildTree aliases ast empty_root) as [[n t]|e] eqn:E; simpl.
  - apply buildTree_correct in E as (Hs & -> & ->). destruct r as [rt re]; simpl.
    split; [intros [= <- <- <-]; auto|intros (_ & -> & -> & ->); done].
  - split; [done|]. intros (Hs & _ & _).
    assert (buildTree aliases ast empty_root =
            Ok (aliased_ast aliases ast, insert_paths (relation_paths aliases ast) empty_root))
      as E' by (apply buildTree_correct; auto).
    congruence.
Qed.

(** C17: Refinement of the constructor's contract: [new Relation(ast,
    aliases)] returns exactly when every aliased identifier is a string; the
    instance's tree is the fresh root extended by every comparison's relation
    path, its expression is the serialization of that tree, and the caller's
    AST is left with its identifiers aliased. *)
Theorem construct_spec ast aliases r ast' :
  construct ast aliases = Ok (r, ast') <->
  identifiers_splittable aliases ast = true /\ ast' = aliased_ast aliases ast /\
  tree r = insert_paths (relation_paths aliases ast) empty_root /\
  expression r = buildExpression (tree r).
Proof. apply construct_correct. Qed.

(** C18: A compiled plan never joins a relation twice: no two siblings of
    the instance's tree share a name. *)
Theorem construct_siblings_unique ast aliases r ast' :
  construct ast aliases = Ok (r, ast') -> siblings_unique (tree r) = true.
Proof.
  intros (_ & _ & -> & _)%construct_correct. eauto with relc.
Qed.

Lemma name_ok_paths ps :
  forallb (forallb name_ok) ps = true -> Forall (Forall (fun s => name_ok s = true)) ps.
Proof.
  intros H. apply List.Forall_forall. intros p Hp. apply List.Forall_forall.
  apply forallb_forall. by apply (proj1 (forallb_forall _ _) H).
Qed.

(** C19: Round trip of a compile: when every relation segment of the aliased
    identifiers is non-empty and free of [. [ ] ,], the instance's expression
    parses back to the instance's tree. *)
Theorem construct_expression_roundtrip ast aliases r ast' :
  construct ast aliases = Ok (r, ast') ->
  forallb (forallb name_ok) (relation_paths aliases ast) = true ->
  parse_expression (expression r) = Some (tree r).
Proof.
  intros (_ & _ & Ht & ->)%construct_correct Hclean.
  apply parse_expression_wf. rewrite Ht.
  apply plan_wf_insert_paths; [by apply name_ok_paths|done].
Qed.

(** C29: The constructor gives the caller's AST back with its declared type:
    when it returns, every comparison identifier of the AST it leaves behind
    is a string (the [node.args.identifier] it overwrote was the one [split]
    then read). *)
Theorem construct_well_typed ast aliases r ast' :
  construct ast aliases = Ok (r, ast') -> node_well_typed ast' = true.
Proof.
  intros (Hs & -> & _)%construct_correct. by apply aliased_ast_well_typed.
Qed.

(** C40: The constructor on the caller's object graph composes with the
    functional constructor: when the AST object at [l] is a tree of depth
    below [f], [new Relation] with [f] nested calls returns exactly when
    [construct] does, with the same instance (tree and expression), and the
    heap then encodes the rewritten AST; when it throws, it throws the same
    exception and the heap encodes the AST as [alias_until] describes. *)
Theorem construct_heap_refines_construct f depth h l n aliases :
  f <= depth -> Heap.decode f h l = Some n -> NoDup (Heap.node_locs f h l) ->
  match construct_heap depth h l aliases, construct n aliases with
  | Some (Ok (r, h')), Ok (r', n') => r = r' /\ Heap.decode f h' l = Some n'
  | Some (Err (e, h')), Err e' => e = e' /\ Heap.decode f h' l = Some (Machine.alias_until aliases n)
  | _, _ => False
  end.
Proof.
  intros Hle Hd Hnd. pose proof (Heap.hbuild_correct aliases f depth h l n empty_root Hle Hd Hnd) as H.
  unfold construct_heap, construct.
  destruct (Heap.hbuild depth aliases h l empty_root) as [[[h' t]|[e h']]|];
    destruct (buildTree aliases n empty_root) as [[n' t']|e']; simpl in H |- *; try contradiction;
    destruct H as (-> & Hd' & _); done.
Qed.

(** ** Comparisons on relation fields *)

(** The comparison [cop] of search.spec.ts on the field [f] of the relation
    [r]: the identifier ["r.f"] and the value [v]. *)
Definition relation_comparison (x : string * string * string * Scalar) : Node :=
  let '(cop, r, f, v) := x in Comparison cop (mkArgs (JsString (r +++ "." +++ f)) v).

Definition relation_of (x : string * string * string * Scalar) : string :=
  let '(_, r, _, _) := x in r.

(** The relation is a name the expression can carry and the field has no dot. *)
Definition clean_field (x : string * string * string * Scalar) : bool :=
  let '(_, r, f, _) := x in name_ok r && negb (char_in "." f).

(** The same comparison written with the alias [k] of ["r.f"]. *)
Definition keyed_comparison (k : string) (x : string * string * string * Scalar) : Node :=
  let '(cop, _, _, v) := x in Comparison cop (mkArgs (JsString k) v).

Definition relation_identifier (x : string * string * string * Scalar) : string :=
  let '(_, r, f, _) := x in r +++ "." +++ f.

Lemma no_special_dot_free s : no_special s = true -> char_in "." s = false.
Proof.
  induction s as [|a s IH]; simpl; [done|]. intros (Ha & Hs)%andb_true_iff.
  unfold is_special in Ha. destruct (Ascii.eqb a "."); [discriminate|]. by apply IH.
Qed.

Lemma name_ok_dot_free r : name_ok r = true -> char_in "." r = false.
Proof. intros (_ & Hr)%name_ok_inv. by apply no_special_dot_free. Qed.

Lemma aliased_ast_None n : aliased_ast None n = n.
Proof.
  induction n as [op cs IH|op [i v]|tag] using Node_ind; simpl; try done.
  f_equal. rewrite <- (map_id cs) at 2. apply map_ext_in. intros c Hc.
  by apply (proj1 (List.Forall_forall _ _) IH).
Qed.

(** A conjunction of comparisons whose aliased identifiers are [r.f] compiles
    to the root with one leaf per relation, in the order first referenced. *)
Lemma construct_relation_leaves op cs aliases rs :
  Forall2 (fun c r => exists cop args f, c = Comparison cop args /\
     Alias.resolve_alias aliases (identifier args) = JsString (r +++ "." +++ f) /\
     name_ok r = true /\ char_in "." f = false) cs rs ->
  construct (Logical op cs) aliases =
    Ok (mkRelation (mkNode "" (map leaf (add_names [] rs))) (leaves_expression (add_names [] rs)),
        aliased_ast aliases (Logical op cs)).
Proof.
  intros H. apply construct_correct.
  assert (identifiers_splittable aliases (Logical op cs) = true /\
          relation_paths aliases (Logical op cs) = map (fun r => [r]) rs) as [Hs Hp].
  { cbn [identifiers_splittable relation_paths].
    induction H as [|c r cs rs (cop & args & f & -> & Hres & Hr & Hf) _ [IH1 IH2]]; [done|].
    cbn [forallb map concat identifiers_splittable relation_paths]. rewrite Hres.
    rewrite js_split_field by (done || by apply name_ok_dot_free). split; [done|].
    cbn. by f_equal. }
  split_and!; [done|done| |].
  - cbn [tree]. rewrite Hp. symmetry. exact (insert_paths_singletons "" [] rs).
  - cbn [tree expression]. symmetry. apply buildExpression_leaves.
    apply List.Forall_forall. intros x Hx%list_elem_of_In.
    destruct (add_names_incl [] rs x Hx) as [Hx'|Hx']; [by apply not_elem_of_nil in Hx'|].
    apply list_elem_of_In in Hx'.
    destruct (Forall2_In_r _ _ _ _ H Hx') as (c & _ & _ & _ & f & _ & _ & Hr & _).
    by apply name_ok_inv.
Qed.

Lemma clean_fields_Forall2 items :
  forallb clean_field items = true ->
  Forall2 (fun c r => exists cop args f, c = Comparison cop args /\
     Alias.resolve_alias None (identifier args) = JsString (r +++ "." +++ f) /\
     name_ok r = true /\ char_in "." f = false)
    (map relation_comparison items) (map relation_of items).
Proof.
  induction items as [|[[[cop r] f] v] items IH]; cbn [forallb map]; [constructor|].
  intros ((Hr & Hf)%andb_true_iff & Hs)%andb_true_iff. constructor; [|by apply IH].
  exists cop, (mkArgs (JsString (r +++ "." +++ f)) v), f. split_and!; try done.
  by apply negb_true_iff.
Qed.

(** ** The repository's test scenarios, in general *)

(** C20: Relations are joined once each, in the order they are first
    referenced (test "simple search #2", spec section 8): a conjunction of
    comparisons on fields [r.f] of relations compiles, with no aliases, to
    the root with one child per distinct relation, kept in first-reference
    order, whose expression is that relation alone or the relations joined
    by commas in brackets; the AST is unchanged. *)
Theorem construct_relation_fields op items :
  forallb clean_field items = true ->
  construct (Logical op (map relation_comparison items)) None =
    Ok (mkRelation (mkNode "" (map leaf (add_names [] (map relation_of items))))
                   (leaves_expression (add_names [] (map relation_of items))),
        Logical op (map relation_comparison items)).
Proof.
  intros H. rewrite (construct_relation_leaves _ _ _ (map relation_of items)).
  - by rewrite aliased_ast_None.
  - by apply clean_fields_Forall2.
Qed.

(** C21: Aliases are substituted before the identifier is split (test
    "aliasing #1"): when every comparison's identifier is an own key of the
    alias map bound to a field [r.f] of a relation, the compile joins the
    relations of the aliased identifiers, once each in first-reference
    order, and leaves the caller's AST holding the aliased identifiers. *)
Theorem construct_aliased_fields m op items :
  forallb (fun '(k, x) => bool_decide (own_props m !! k = Some (relation_identifier x)) &&
                          clean_field x) items = true ->
  construct (Logical op (map (fun '(k, x) => keyed_comparison k x) items)) (Some m) =
    Ok (mkRelation (mkNode "" (map leaf (add_names [] (map (fun '(_, x) => relation_of x) items))))
                   (leaves_expression (add_names [] (map (fun '(_, x) => relation_of x) items))),
        Logical op (map (fun '(_, x) => relation_comparison x) items)).
Proof.
  intros H. rewrite (construct_relation_leaves _ _ _ (map (fun '(_, x) => relation_of x) items)).
  - do 2 f_equal. cbn [aliased_ast]. f_equal. rewrite map_map.
    apply map_ext_in. intros [k [[[cop r] f] v]] Hin. cbn [keyed_comparison relation_comparison aliased_ast identifier value].
    pose proof (proj1 (forallb_forall _ _) H _ Hin) as Hc. cbv beta iota in Hc.
    apply andb_true_iff in Hc as [Hk%bool_decide_eq_true _].
    by rewrite (Alias.resolve_alias_own _ _ _ Hk).
  - induction items as [|[k [[[cop r] f] v]] items IH]; cbn [forallb map] in *; [constructor|].
    apply andb_true_iff in H as [(Hk%bool_decide_eq_true & (Hr & Hf)%andb_true_iff)%andb_true_iff Hs].
    constructor; [|by apply IH].
    exists cop, (mkArgs (JsString k) v), f. cbn [identifier].
    rewrite (Alias.resolve_alias_own _ _ _ Hk). split_and!; try done. by apply negb_true_iff.
Qed.

(** C22: A predicate on fields of the root entity needs no join (test
    "simple search #1"): when no (aliased) identifier has a dot, the compile
    returns the empty tree and the empty expression, and the AST with its
    identifiers aliased. *)
Theorem construct_root_fields ast aliases :
  identifiers_dot_free aliases ast = true ->
  construct ast aliases = Ok (mkRelation empty_root "", aliased_ast aliases ast).
Proof.
  intros H. apply construct_correct. split_and!; [by apply dot_free_splittable|done| |done].
  cbn [tree]. symmetry. by apply insert_paths_nil, relation_paths_dot_free.
Qed.

(** C23: Insertion-order stability (spec, section 8): siblings keep the
    order in which their relations are first referenced, not a sorted one:
    comparisons on fields of two different relations [a] and [b] give
    ["[a,b]"], and the reversed conjunction gives ["[b,a]"]. *)
Theorem construct_insertion_order op a b fa fb ca cb va vb :
  a <> b -> name_ok a = true -> name_ok b = true ->
  char_in "." fa = false -> char_in "." fb = false ->
  compiled_expression (Logical op [relation_comparison (ca, a, fa, va);
                                   relation_comparison (cb, b, fb, vb)]) None =
    Some ("[" +++ a +++ "," +++ b +++ "]") /\
  compiled_expression (Logical op [relation_comparison (cb, b, fb, vb);
                                   relation_comparison (ca, a, fa, va)]) None =
    Some ("[" +++ b +++ "," +++ a +++ "]").
Proof.
  intros Hab Ha Hb Hfa Hfb.
  assert (forall x y fx fy cx cy vx vy, x <> y -> name_ok x = true -> name_ok y = true ->
            char_in "." fx = false -> char_in "." fy = false ->
            compiled_expression (Logical op [relation_comparison (cx, x, fx, vx);
                                             relation_comparison (cy, y, fy, vy)]) None =
              Some ("[" +++ x +++ "," +++ y +++ "]")) as Hgen.
  { intros x y fx fy cx cy vx vy Hxy Hx Hy Hfx Hfy. unfold compiled_expression.
    rewrite (construct_relation_leaves op _ None [x; y]).
    - cbn [expression]. unfold add_names. cbn [fold_left].
      rewrite (bool_decide_false (x ∈ [])) by apply not_elem_of_nil. cbn [app].
      rewrite bool_decide_false by (rewrite list_elem_of_singleton; congruence).
      simpl. by rewrite !str_app_assoc.
    - apply (clean_fields_Forall2 [(cx, x, fx, vx); (cy, y, fy, vy)]).
      cbn. by rewrite Hx, Hy, Hfx, Hfy. }
  split; apply Hgen; auto.
Qed.

(** ** What the modelling exposed *)

(** C24: An identifier that names a property of [Object.prototype]
    (["constructor"], ["toString"], ["valueOf"], ...) and is not an own key
    of the alias map passes the [identifier in aliases] test, is replaced by
    a function (or an object), and [split] then throws a TypeError: the
    compile fails although the spec says a missing alias is not an error. *)
Theorem construct_inherited_alias_throws m k op v :
  own_props m !! k = None -> k ∈ Alias.object_prototype_keys ->
  construct (Comparison op (mkArgs (JsString k) v)) (Some m) =
    Err (TypeError "node.args.identifier.split is not a function").
Proof.
  intros Hown Hk. unfold construct. rewrite buildTree_comparison; cbn [identifier].
  rewrite (Alias.resolve_alias_inherited _ _ Hown Hk). by case_bool_decide.
Qed.

Lemma construct_Err_iff ast aliases :
  (exists e, construct ast aliases = Err e) <-> identifiers_splittable aliases ast = false.
Proof.
  destruct (construct ast aliases) as [[r a']|e] eqn:E.
  - apply construct_correct in E as (Hs & _). rewrite Hs. split; [by intros []|done].
  - split; [intros _|eauto]. destruct (identifiers_splittable aliases ast) eqn:Hs; [|done].
    assert (construct ast aliases =
              Ok (mkRelation (insert_paths (relation_paths aliases ast) empty_root)
                    (buildExpression (insert_paths (relation_paths aliases ast) empty_root)),
                  aliased_ast aliases ast)) as E' by (apply construct_correct; auto).
    congruence.
Qed.

Lemma resolve_alias_is_string m k :
  is_js_string (Alias.resolve_alias (Some m) (JsString k)) =
    negb (bool_decide (own_props m !! k = None /\ k ∈ Alias.object_prototype_keys)).
Proof.
  destruct (own_props m !! k) as [v|] eqn:Hown.
  - rewrite (Alias.resolve_alias_own _ _ _ Hown), bool_decide_false; [done|]. by intros [? _].
  - destruct (decide (k ∈ Alias.object_prototype_keys)) as [Hk|Hk].
    + rewrite (Alias.resolve_alias_inherited _ _ Hown Hk).
      rewrite (bool_decide_true (None = None /\ _)) by done.
      by case_bool_decide.
    + rewrite (Alias.resolve_alias_absent _ _ Hown Hk), bool_decide_false; [done|]. by intros [_ ?].
Qed.

(** C28: The error path of the constructor, exactly: on an AST of its
    declared type, [new Relation(ast, aliases)] throws exactly when some
    comparison's identifier is a name of [Object.prototype] that is not an
    own key of the alias map; every other identifier, aliased or not, is
    split without error. *)
Theorem construct_throws_iff ast m :
  node_well_typed ast = true ->
  (exists e, construct ast (Some m) = Err e) <->
  Exists (fun args => exists k, identifier args = JsString k /\
            own_props m !! k = None /\ k ∈ Alias.object_prototype_keys) (comparisons ast).
Proof.
  rewrite construct_Err_iff, identifiers_splittable_comparisons, node_well_typed_comparisons.
  induction (comparisons ast) as [|a l IH]; cbn [forallb]; intros Hwt.
  { split; [done|]. inversion 1. }
  apply andb_true_iff in Hwt as [Ha Hl]. rewrite andb_false_iff, Exists_cons, <- IH by done.
  destruct (identifier a) as [k| | |]; try done.
  rewrite resolve_alias_is_string, negb_false_iff, bool_decide_eq_true.
  split; (intros [H|H]; [left|by right]); [by exists k|by destruct H as (? & [= <-] & ?)].
Qed.

(** The tree [buildTree] grows from the fresh root for one identifier. *)
Definition identifier_plan (s : string) : RelationNode :=
  insert_path (relation_tokens (js_split "." s)) empty_root.

(** C25: The constructor overwrites the caller's AST with the aliased
    identifiers, so compiling the returned AST again applies the aliases a
    second time: with own aliases [x -> y] and [y -> s], the first compile of
    a comparison on [x] plans the relations of [y] and leaves [y] in the AST;
    the second compile of that AST plans the relations of [s] and leaves
    [s]. *)
Theorem construct_recompile_reapplies_aliases m op x y s v :
  own_props m !! x = Some y -> own_props m !! y = Some s ->
  construct (Comparison op (mkArgs (JsString x) v)) (Some m) =
    Ok (mkRelation (identifier_plan y) (buildExpression (identifier_plan y)),
        Comparison op (mkArgs (JsString y) v)) /\
  construct (Comparison op (mkArgs (JsString y) v)) (Some m) =
    Ok (mkRelation (identifier_plan s) (buildExpression (identifier_plan s)),
        Comparison op (mkArgs (JsString s) v)).
Proof.
  intros Hx Hy. unfold construct. rewrite !buildTree_comparison. cbn [identifier value].
  by rewrite (Alias.resolve_alias_own _ _ _ Hx), (Alias.resolve_alias_own _ _ _ Hy).
Qed.

(** C26: A node whose [type] tag is neither logical nor comparison is
    skipped without error, at any position among the constraints, where the
    spec asks for an [InvalidPredicateNode] error. *)
Theorem construct_skips_unrecognized op tags aliases :
  construct (Logical op (map Unrecognized tags)) aliases =
    Ok (mkRelation empty_root "", Logical op (map Unrecognized tags)).
Proof.
  apply construct_correct. cbn [identifiers_splittable aliased_ast relation_paths].
  rewrite !map_map. split_and!.
  - apply forallb_forall. intros x Hx. apply in_map_iff in Hx as (? & <- & _). done.
  - reflexivity.
  - cbn [tree]. induction tags as [|tg tags IH]; [done|]. exact IH.
  - reflexivity.
Qed.

Lemma relation_tokens_cons w ws : ws <> [] -> relation_tokens (w :: ws) = w :: relation_tokens ws.
Proof.
  intros Hws. unfold relation_tokens. destruct ws as [|w' ws]; [done|].
  cbn [length]. by rewrite !Nat.sub_succ, !Nat.sub_0_r.
Qed.

(** C27: Empty path segments are accepted and make empty-named relations:
    for every identifier [s], the identifier [".s"] compiles to the plan of
    [s] placed under one more, unnamed, relation, and that different plan
    prints the same expression as the plan of [s]. *)
Theorem construct_empty_segment op v s :
  exists t,
    construct (Comparison op (mkArgs (JsString s) v)) None =
      Ok (mkRelation t (buildExpression t), Comparison op (mkArgs (JsString s) v)) /\
    construct (Comparison op (mkArgs (JsString ("." +++ s)) v)) None =
      Ok (mkRelation (mkNode "" [t]) (buildExpression t),
          Comparison op (mkArgs (JsString ("." +++ s)) v)).
Proof.
  exists (identifier_plan s). unfold construct. rewrite !buildTree_comparison.
  cbn [identifier value Alias.resolve_alias]. split; [done|].
  assert (js_split "." ("." +++ s) = "" :: js_split "." s) as -> by reflexivity.
  rewrite relation_tokens_cons by apply js_split_nonnil. done.
Qed.

(** ** Witnesses *)

Lemma construct_siblings_unique_witness :
  construct aliasing_1 (Some aliasing_1_aliases) =
    Ok (mkRelation (mkNode "" [mkNode "salaries" []]) "salaries",
        aliased_ast (Some aliasing_1_aliases) aliasing_1) /\
  siblings_unique (mkNode "" [mkNode "salaries" []]) = true.
Proof.
  split; [reflexivity|].
  exact (construct_siblings_unique aliasing_1 (Some aliasing_1_aliases)
           (mkRelation (mkNode "" [mkNode "salaries" []]) "salaries") _ eq_refl).
Defined.

Lemma construct_expression_roundtrip_witness :
  construct aliasing_1 (Some aliasing_1_aliases) =
    Ok (mkRelation (mkNode "" [mkNode "salaries" []]) "salaries",
        aliased_ast (Some aliasing_1_aliases) aliasing_1) /\
  forallb (forallb name_ok) (relation_paths (Some aliasing_1_aliases) aliasing_1) = true /\
  parse_expression "salaries" = Some (mkNode "" [mkNode "salaries" []]).
Proof.
  split_and!; [reflexivity|reflexivity|].
  exact (construct_expression_roundtrip aliasing_1 (Some aliasing_1_aliases)
           (mkRelation (mkNode "" [mkNode "salaries" []]) "salaries") _ eq_refl eq_refl).
Defined.

Lemma construct_well_typed_witness :
  construct aliasing_1 (Some aliasing_1_aliases) =
    Ok (mkRelation (mkNode "" [mkNode "salaries" []]) "salaries",
        aliased_ast (Some aliasing_1_aliases) aliasing_1) /\
  node_well_typed (aliased_ast (Some aliasing_1_aliases) aliasing_1) = true.
Proof.
  split; [reflexivity|].
  exact (construct_well_typed aliasing_1 (Some aliasing_1_aliases)
           (mkRelation (mkNode "" [mkNode "salaries" []]) "salaries") _ eq_refl).
Defined.

Lemma construct_heap_refines_construct_witness :
  2 <= 2 /\ Heap.decode 2 Heap.aliasing_heap 1 = Some Heap.aliasing_ast /\
  NoDup (Heap.node_locs 2 Heap.aliasing_heap 1) /\
  match construct_heap 2 Heap.aliasing_heap 1 (Some Heap.aliasing_aliases),
        construct Heap.aliasing_ast (Some Heap.aliasing_aliases) with
  | Some (Ok (r, h')), Ok (r', n') => r = r' /\ Heap.decode 2 h' 1 = Some n'
  | Some (Err (e, h')), Err e' =>
      e = e' /\ Heap.decode 2 h' 1 = Some (Machine.alias_until (Some Heap.aliasing_aliases) Heap.aliasing_ast)
  | _, _ => False
  end.
Proof.
  assert (Heap.decode 2 Heap.aliasing_heap 1 = Some Heap.aliasing_ast) as Hd by (vm_compute; reflexivity).
  assert (NoDup (Heap.node_locs 2 Heap.aliasing_heap 1)) as Hnd
    by (vm_compute; apply NoDup_ListNoDup; repeat constructor; simpl; lia).
  split_and!; [lia|exact Hd|exact Hnd|].
  exact (construct_heap_refines_construct 2 2 Heap.aliasing_heap 1 _ (Some Heap.aliasing_aliases)
           (le_n 2) Hd Hnd).
Defined.

Lemma construct_inherited_alias_throws_witness :
  own_props (mkAliases ∅) !! "toString" = None /\
  "toString" ∈ Alias.object_prototype_keys /\
  construct (Comparison "eq" (mkArgs (JsString "toString") (SNumber 1))) (Some (mkAliases ∅)) =
    Err (TypeError "node.args.identifier.split is not a function").
Proof.
  assert ("toString" ∈ Alias.object_prototype_keys) as Hk.
  { apply (proj1 (bool_decide_eq_true _)). reflexivity. }
  split_and!; [reflexivity|exact Hk|].
  exact (construct_inherited_alias_throws (mkAliases ∅) "toString" "eq" (SNumber 1) eq_refl Hk).
Defined.

Lemma construct_relation_fields_witness :
  forallb clean_field simple_search_2_items = true /\
  Logical "match_all" (map relation_comparison simple_search_2_items) = simple_search_2 /\
  construct simple_search_2 None =
    Ok (mkRelation (mkNode "" [mkNode "salaries" []]) "salaries", simple_search_2).
Proof.
  split_and!; [reflexivity|reflexivity|].
  exact (construct_relation_fields "match_all" simple_search_2_items eq_refl).
Defined.

Lemma construct_aliased_fields_witness :
  forallb (fun '(k, x) => bool_decide (own_props aliasing_1_aliases !! k = Some (relation_identifier x)) &&
                          clean_field x) aliasing_1_items = true /\
  Logical "match_all" (map (fun '(k, x) => keyed_comparison k x) aliasing_1_items) = aliasing_1 /\
  construct aliasing_1 (Some aliasing_1_aliases) =
    Ok (mkRelation (mkNode "" [mkNode "salaries" []]) "salaries",
        Logical "match_all"
          [Comparison "geq" (mkArgs (JsString "salaries.salary") (SNumber 60000));
           Comparison "geq" (mkArgs (JsString "salaries.from_date") (SString "1986-06-26"))]).
Proof.
  split_and!; [reflexivity|reflexivity|].
  exact (construct_aliased_fields aliasing_1_aliases "match_all" aliasing_1_items eq_refl).
Defined.

Lemma construct_root_fields_witness :
  identifiers_dot_free None simple_search_1 = true /\
  construct simple_search_1 None = Ok (mkRelation empty_root "", simple_search_1).
Proof.
  split; [reflexivity|]. exact (construct_root_fields simple_search_1 None eq_refl).
Defined.

Lemma construct_insertion_order_witness :
  "a" <> "b" /\ name_ok "a" = true /\ name_ok "b" = true /\
  char_in "." "x" = false /\ char_in "." "y" = false /\
  compiled_expression (Logical "match_all" [relation_comparison ("geq", "a", "x", SNumber 1);
                                            relation_comparison ("geq", "b", "y", SNumber 2)]) None =
    Some "[a,b]" /\
  compiled_expression (Logical "match_all" [relation_comparison ("geq", "b", "y", SNumber 2);
                                            relation_comparison ("geq", "a", "x", SNumber 1)]) None =
    Some "[b,a]".
Proof.
  assert ("a" <> "b") as Hab by discriminate.
  destruct (construct_insertion_order "match_all" "a" "b" "x" "y" "geq" "geq"
              (SNumber 1) (SNumber 2) Hab eq_refl eq_refl eq_refl eq_refl) as [H1 H2].
  split_and!; [exact Hab|reflexivity|reflexivity|reflexivity|reflexivity|exact H1|exact H2].
Defined.

Lemma construct_recompile_reapplies_aliases_witness :
  own_props chained_aliases !! "x" = Some "y" /\ own_props chained_aliases !! "y" = Some "r.f" /\
  construct (Comparison "eq" (mkArgs (JsString "x") (SNumber 1))) (Some chained_aliases) =
    Ok (mkRelation empty_root "", Comparison "eq" (mkArgs (JsString "y") (SNumber 1))) /\
  construct (Comparison "eq" (mkArgs (JsString "y") (SNumber 1))) (Some chained_aliases) =
    Ok (mkRelation (mkNode "" [mkNode "r" []]) "r", Comparison "eq" (mkArgs (JsString "r.f") (SNumber 1))).
Proof.
  split_and!; [reflexivity|reflexivity| |];
  [exact (proj1 (construct_recompile_reapplies_aliases chained_aliases "eq" "x" "y" "r.f" (SNumber 1) eq_refl eq_refl))
  |exact (proj2 (construct_recompile_reapplies_aliases chained_aliases "eq" "x" "y" "r.f" (SNumber 1) eq_refl eq_refl))].
Defined.

Lemma construct_throws_iff_witness :
  node_well_typed aliasing_toString = true /\
  (exists e, construct aliasing_toString (Some aliasing_1_aliases) = Err e) /\
  ~ (exists e, construct aliasing_1 (Some aliasing_1_aliases) = Err e).
Proof.
  assert ("toString" ∈ Alias.object_prototype_keys) as Hk.
  { apply (proj1 (bool_decide_eq_true _)). reflexivity. }
  split_and!; [reflexivity| |].
  - apply (proj2 (construct_throws_iff aliasing_toString aliasing_1_aliases eq_refl)).
    apply List.Exists_cons_tl, List.Exists_cons_hd. exists "toString". split_and!; [reflexivity|reflexivity|exact Hk].
  - intros He. apply (proj1 (construct_throws_iff aliasing_1 aliasing_1_aliases eq_refl)) in He.
    apply List.Exists_exists in He as (a & Ha & k & Hid & Hown & _).
    cbn in Ha. destruct Ha as [<-|[<-|[]]]; cbn in Hid; injection Hid as <-;
      vm_compute in Hown; discriminate.
Defined.

End Relation.
